(** * Game Arena: the Snake & Ladder and Tic-Tac-Toe engines

    A shallow embedding of the game logic of
    [src/tic_tac_toe_frontend/src/SnakeLadderGame.js] and
    [src/tic_tac_toe_frontend/src/App.js].

    Conventions of the embedding.
    - A React state object is a record; a [setState] updater is a function
      on that record.  A handler that queues timers is split into the
      updaters it runs, one definition per updater, in source order.
    - JavaScript numbers that only ever hold small integers are [Z]; array
      indices and player indices are [nat].
    - An array is a [list] read with stdpp's lookup [l !! i]; [None] is
      JavaScript's [undefined].  A write [a[i] = v] is [<[i:=v]> a] and is
      only performed in range: where the source would grow the array (an
      index past the end) the embedded function returns [None], since
      holes and [NaN] are outside the value types used here.
    - An object literal used as a dictionary is a [gmap]. *)

From Stdlib Require Import ZArith Lia.
From stdpp Require Import base decidable option list strings pretty gmap fin_maps relations.
From Equations Require Import Equations.

(** ** Snake & Ladder ([SnakeLadderGame.js]) *)

Module SnakeLadder.

Local Open Scope Z_scope.

Definition BOARD_SIZE : Z := 10.
Definition WIN_CELL : Z := 100.

(** Board snakes & ladders, [{ [from]: to }]. *)
Definition BOARD_PORTALS : gmap Z Z :=
  list_to_map
    [ (* ladders *)
      (2, 23); (6, 45); (20, 59); (52, 72); (57, 96); (71, 92);
      (* snakes *)
      (43, 17); (50, 5); (56, 8); (73, 15); (84, 58); (87, 49); (98, 40) ].

(** The component state, field for field. [dice] and [winner] are [null]
    ([None]) or a number. *)
Record State : Type := mkState {
  positions : list Z;
  turn : nat;
  rolling : bool;
  dice : option Z;
  status : string;
  winner : option nat
}.

Definition initialState : State :=
  {| positions := [1; 1];
     turn := 0;
     rolling := false;
     dice := None;
     status := "";
     winner := None |}.

(** [newGame]: [setState(initialState)]. *)
Definition newGame (_ : State) : State := initialState.

(** The expression [tbl[pos] || pos]: a missing key reads [undefined], and
    [||] falls through to [pos] on [undefined] and on [0]. *)
Definition portal_or (tbl : gmap Z Z) (pos : Z) : Z :=
  match tbl !! pos with
  | Some v => if bool_decide (v = 0) then pos else v
  | None => pos
  end.

(** The [do { prev = pos; pos = tbl[pos] || pos } while (prev !== pos)] loop
    over an arbitrary table, with an iteration budget: [None] means that the
    loop has not left after [fuel] iterations. *)
Fixpoint resolve_loop (tbl : gmap Z Z) (fuel : nat) (pos : Z) : option Z :=
  match fuel with
  | O => None
  | S fuel' =>
      let prev := pos in
      let pos := portal_or tbl pos in
      if bool_decide (prev ≠ pos) then resolve_loop tbl fuel' pos else Some pos
  end.

(** Termination measure of the loop on [BOARD_PORTALS]: a portal source is
    one hop away from its fixed point, every other cell is one. *)
Definition portal_rank (pos : Z) : nat :=
  match BOARD_PORTALS !! pos with
  | Some _ => 1%nat
  | None => 0%nat
  end.

Lemma BOARD_PORTALS_lookup (pos v : Z) :
  BOARD_PORTALS !! pos = Some v →
  (pos, v) ∈ [ (2, 23); (6, 45); (20, 59); (52, 72); (57, 96); (71, 92);
               (43, 17); (50, 5); (56, 8); (73, 15); (84, 58); (87, 49);
               (98, 40) ].
Proof. intros H. apply elem_of_list_to_map_2 in H. exact H. Qed.

(** No portal lands on the foot of another one, on [0], or off the track. *)
Lemma BOARD_PORTALS_target (pos v : Z) :
  BOARD_PORTALS !! pos = Some v →
  BOARD_PORTALS !! v = None ∧ 5 ≤ v ≤ 96 ∧ v ≠ pos ∧ 2 ≤ pos ≤ 98.
Proof.
  intros H%BOARD_PORTALS_lookup.
  repeat (apply elem_of_cons in H as [H | H];
          [ injection H as -> ->; split; [ vm_compute; reflexivity | lia ] | ]).
  apply elem_of_nil in H. destruct H.
Qed.

Lemma portal_or_source (pos v : Z) :
  BOARD_PORTALS !! pos = Some v → portal_or BOARD_PORTALS pos = v.
Proof.
  intros H. unfold portal_or. rewrite H.
  apply BOARD_PORTALS_target in H as (_ & ? & _).
  rewrite bool_decide_eq_false_2 by lia. reflexivity.
Qed.

Lemma portal_or_plain (tbl : gmap Z Z) (pos : Z) :
  tbl !! pos = None → portal_or tbl pos = pos.
Proof. intros H. unfold portal_or. rewrite H. reflexivity. Qed.

Lemma portal_rank_decreases (pos : Z) :
  pos ≠ portal_or BOARD_PORTALS pos →
  (portal_rank (portal_or BOARD_PORTALS pos) < portal_rank pos)%nat.
Proof.
  intros Hne. unfold portal_rank at 2.
  destruct (BOARD_PORTALS !! pos) as [v|] eqn:Hv.
  - rewrite (portal_or_source _ _ Hv).
    apply BOARD_PORTALS_target in Hv as (Hnone & _).
    unfold portal_rank. rewrite Hnone. lia.
  - rewrite portal_or_plain in Hne by exact Hv. congruence.
Qed.

(** [resolvePortals]: apply snake/ladder and return the updated position.
    The loop of the source on [BOARD_PORTALS]; the recursive call is the
    next iteration, taken when [prev !== pos]. *)
Equations resolvePortals (pos : Z) : Z by wf (portal_rank pos) lt :=
  resolvePortals pos with decide (pos = portal_or BOARD_PORTALS pos) => {
    | left _ := portal_or BOARD_PORTALS pos
    | right Hne := resolvePortals (portal_or BOARD_PORTALS pos) }.
Next Obligation. apply portal_rank_decreases. exact Hne. Qed.

(** Truthiness of [state.winner]: [null] is falsy, and so is the number
    [0], the index of the first player. *)
Definition winner_truthy (w : option nat) : bool :=
  match w with
  | Some (S _) => true
  | Some O => false
  | None => false
  end.

(** The guard of [handleRollDice]: [state.rolling || state.winner]. *)
Definition roll_blocked (state : State) : bool :=
  rolling state || winner_truthy (winner state).

(** First updater of [handleRollDice]:
    [(s) => ({ ...s, rolling: true, dice: null })]. *)
Definition beginRoll (s : State) : State :=
  {| positions := positions s;
     turn := turn s;
     rolling := true;
     dice := None;
     status := status s;
     winner := winner s |}.

(** [handleRollDice], the part that runs at once: the guard, then the first
    [setState].  The two timers it queues are [resolveRoll] and
    [advanceTurn] below.  The guard reads the state of the last render and
    the updater receives the current one; they are the same state here, as
    they are whenever the component has rendered since the last update. *)
Definition handleRollDice (state : State) : State :=
  if roll_blocked state then state else beginRoll state.

(** The template string [`Player ${i + 1} wins!`]. *)
Definition win_status (i : nat) : string :=
  "Player " +:+ pretty (i + 1)%nat +:+ " wins!".

(** Second updater, run by the first timer with the value [dice] drawn as
    [1 + Math.floor(Math.random() * 6)].  [None] when [prev.positions] has
    no entry at [prev.turn]. *)
Definition resolveRoll (dice : Z) (prev : State) : option State :=
  let i := turn prev in
  let npos := positions prev in
  match npos !! i with
  | None => None
  | Some cur =>
      (* can't overshoot *)
      let newPos := if bool_decide (cur + dice ≤ WIN_CELL) then cur + dice else cur in
      let newPos := resolvePortals newPos in
      let npos := <[i := newPos]> npos in
      (* Win check *)
      let win := if bool_decide (newPos = WIN_CELL) then Some i else None in
      Some {| positions := npos;
              turn := turn prev;
              rolling := false;
              dice := Some dice;
              status := match win with Some w => win_status w | None => "" end;
              winner := win |}
  end.

(** Third updater, run by the second timer (next turn for non-win):
    [(s) => s.winner !== null ? s : { ...s, turn: s.turn === 0 ? 1 : 0 }]. *)
Definition advanceTurn (s : State) : State :=
  match winner s with
  | Some _ => s
  | None =>
      {| positions := positions s;
         turn := if bool_decide (turn s = 0%nat) then 1%nat else 0%nat;
         rolling := rolling s;
         dice := dice s;
         status := status s;
         winner := winner s |}
  end.

(** One schedule among those the component allows: a roll whose two timers
    fire before anything else is dispatched (the guard, then the three
    updaters in order).  It serves to build reachable states; the guard
    opens again after the first timer, so other schedules exist, and
    [step] below allows them all. *)
Definition playRoll (dice : Z) (state : State) : option State :=
  if roll_blocked state then Some state
  else advanceTurn <$> resolveRoll dice (beginRoll state).

(** A game in which the rolls come one after the other. *)
Fixpoint playRolls (rolls : list Z) (state : State) : option State :=
  match rolls with
  | [] => Some state
  | d :: rest =>
      match playRoll d state with
      | Some state' => playRolls rest state'
      | None => None
      end
  end.

(** What the component can do to its state: restart, start a roll, and the
    two timer callbacks, the dice value being any of 1..6. *)
Inductive step : State → State → Prop :=
  | step_newGame s :
      step s (newGame s)
  | step_handleRollDice s :
      step s (handleRollDice s)
  | step_resolveRoll d s s' :
      1 ≤ d ≤ 6 → resolveRoll d s = Some s' → step s s'
  | step_advanceTurn s :
      step s (advanceTurn s).

Definition reachable (s : State) : Prop := rtc step initialState s.

(** The state invariant of play: two tokens on the track, neither resting
    on the foot of a ladder or the head of a snake, and a player to move. *)
Definition resting (p : Z) : Prop :=
  1 ≤ p ≤ 100 ∧ BOARD_PORTALS !! p = None.

Definition well_formed (s : State) : Prop :=
  length (positions s) = 2%nat ∧ (turn s < 2)%nat ∧ Forall resting (positions s).

(** A portal table with a cycle, to see what the loop does on one. *)
Definition cyclic_portals : gmap Z Z := list_to_map [ (2, 3); (3, 2) ].

(** The value the roll moves to before portals apply:
    [npos[i] + dice <= WIN_CELL ? npos[i] + dice : npos[i]]. *)
Definition candidate (cur dice : Z) : Z :=
  if bool_decide (cur + dice ≤ WIN_CELL) then cur + dice else cur.

(** Sample states.  [first_player_won] is the end of the game in which the
    first player rolls 5, 6, 6, 4 and the second player 3, 3, 3. *)
Definition first_player_won : State :=
  {| positions := [100; 10];
     turn := 0;
     rolling := false;
     dice := Some 4;
     status := "Player 1 wins!";
     winner := Some 0%nat |}.

Definition on_snake_head : State :=
  {| positions := [98; 1];
     turn := 0;
     rolling := true;
     dice := None;
     status := "";
     winner := None |}.

(** The state after the first player rolled 5, 6, 4, 6, 6, 5, 6, 5, 6, 6 and
    the second player ten times 3, the turns alternating. *)
Definition first_player_on_95 : State :=
  {| positions := [95; 31];
     turn := 0;
     rolling := false;
     dice := Some 3;
     status := "";
     winner := None |}.

Definition near_finish (p : Z) : State :=
  {| positions := [p; 1];
     turn := 0;
     rolling := true;
     dice := None;
     status := "";
     winner := None |}.

(** ** The rest of the component *)

(** [generateBoard]: the board layout, numbered snake-style.  The outer
    loop runs over the rows, the inner one pushes [num--] ten times, and
    every odd row is reversed. *)
Definition generateBoard : list (list Z) :=
  let push_row (num : Z) : list Z * Z :=
    foldl (λ '(row, num) _, (row ++ [num], num - 1))
          ([], num) (seq 0 (Z.to_nat BOARD_SIZE)) in
  fst (foldl (λ '(rows, num) i,
                let '(row, num) := push_row num in
                let row := if bool_decide (i mod 2 = 1)%nat then reverse row else row in
                (rows ++ [row], num))
             ([], 100) (seq 0 (Z.to_nat BOARD_SIZE))).

(** [cellClass(cell, playerPos, portals)]: the style classes of a board
    cell.  [portals[cell]] is tested for truthiness, so a missing entry
    and an entry [0] add nothing. *)
Definition cellClass (cell : Z) (playerPos : list Z) (portals : gmap Z Z) : string :=
  let extra :=
    if bool_decide (Some cell = playerPos !! 0%nat) &&
       bool_decide (Some cell = playerPos !! 1%nat) then " both"
    else if bool_decide (Some cell = playerPos !! 0%nat) then " p1"
    else if bool_decide (Some cell = playerPos !! 1%nat) then " p2"
    else "" in
  let extra :=
    match portals !! cell with
    | Some v =>
        if bool_decide (v = 0) then extra
        else extra +:+ (if bool_decide (v > cell) then " ladder" else " snake")
    | None => extra
    end in
  let extra := if bool_decide (cell = WIN_CELL) then extra +:+ " finish" else extra in
  "sl-cell" +:+ extra.

(** [handleKeyPress(e)], with [key] for [e.key]: spacebar or enter rolls
    if active.  [state.winner == null] holds of [null] only. *)
Definition handleKeyPress (key : string) (state : State) : State :=
  if (bool_decide (key = " ") || bool_decide (key = "Enter"))
     && negb (rolling state)
     && bool_decide (winner state = None)
  then handleRollDice state
  else state.

(** The closed form of the layout: row [i] from the top, column [j] from
    the left. *)
Definition cell_at (i j : nat) : Z :=
  if bool_decide (i mod 2 = 1)%nat
  then 91 - 10 * Z.of_nat i + Z.of_nat j
  else 100 - 10 * Z.of_nat i - Z.of_nat j.

(** What the winner, the tokens, the turn and the message have to do with
    each other in play. *)
Definition settled (s : State) : Prop :=
  (∀ j : nat, positions s !! j = Some WIN_CELL ↔ winner s = Some j) ∧
  (∀ w : nat, winner s = Some w → turn s = w) ∧
  status s = match winner s with Some w => win_status w | None => "" end.

End SnakeLadder.

(** ** Tic-Tac-Toe ([App.js]) *)

Module TicTacToe.

(** The two strings a square can hold. *)
Inductive Mark : Type := X | O.

#[global] Instance Mark_eq_dec : EqDecision Mark.
Proof. solve_decision. Defined.

(** A square holds [null] ([None]) or a mark; the board is
    [Array(9).fill(null)] with marks written into it. *)
Abbreviation Board := (list (option Mark)).

(** A line is a three-element array of indices, [[a, b2, c]]. *)
Abbreviation Line := (nat * nat * nat)%type.

Definition lines : list Line :=
  [ (0, 1, 2); (3, 4, 5); (6, 7, 8);
    (0, 3, 6); (1, 4, 7); (2, 5, 8);
    (0, 4, 8); (2, 4, 6) ].

(** The [winner] field of a result: a mark, or the string ["draw"]. *)
Inductive Winner : Type :=
  | Won (m : Mark)
  | Draw.

(** The object [calculateWinner] returns: [{ winner, line }]. *)
Record Result : Type := mkResult {
  winner : Winner;
  line : option Line
}.

(** Truthiness of a value read from the board: [undefined] (no such index)
    and [null] are falsy, a mark is truthy. *)
Definition truthy (v : option (option Mark)) : bool :=
  match v with
  | Some (Some _) => true
  | _ => false
  end.

(** The [for (let line of lines)] loop.  The test of one line is
    [b[a] && b[a] === b[b2] && b[a] === b[c]]: a falsy [b[a]] skips the
    line, and the first line that passes returns [{ winner: b[a], line }]. *)
Fixpoint scan_lines (b : Board) (ls : list Line) : option Result :=
  match ls with
  | [] => None
  | (a, b2, c) :: rest =>
      match b !! a with
      | Some (Some m) =>
          if bool_decide (b !! a = b !! b2) && bool_decide (b !! a = b !! c)
          then Some {| winner := Won m; line := Some (a, b2, c) |}
          else scan_lines b rest
      | _ => scan_lines b rest
      end
  end.

(** [calculateWinner]: the scan, then [b.every(Boolean)] for a draw, then
    [null]. *)
Definition calculateWinner (b : Board) : option Result :=
  match scan_lines b lines with
  | Some r => Some r
  | None =>
      if forallb (λ v, truthy (Some v)) b
      then Some {| winner := Draw; line := None |}
      else None
  end.

(** The Tic-Tac-Toe part of the [App] state. [gameMode] is [null], ["ai"]
    or ["local"]; [status] is the empty string while the game runs. *)
Record State : Type := mkState {
  gameMode : option string;
  board : Board;
  xIsNext : bool;
  status : string;
  animWinLine : option Line
}.

Definition emptyBoard : Board := replicate 9 None.

(** The state [useState] starts from. *)
Definition initialState : State :=
  {| gameMode := None;
     board := emptyBoard;
     xIsNext := true;
     status := "";
     animWinLine := None |}.

(** [startNewGame(mode)]. *)
Definition startNewGame (mode : option string) (_ : State) : State :=
  {| gameMode := mode;
     board := emptyBoard;
     xIsNext := true;
     status := "";
     animWinLine := None |}.

(** [restartGame()]. *)
Definition restartGame (s : State) : State :=
  {| gameMode := gameMode s;
     board := emptyBoard;
     xIsNext := true;
     status := "";
     animWinLine := None |}.

(** Truthiness of a string: the empty string is falsy. *)
Definition nonempty (s : string) : bool :=
  match s with
  | EmptyString => false
  | String _ _ => true
  end.

Definition mark_string (m : Mark) : string :=
  match m with
  | X => "X"
  | O => "O"
  end.

(** The guard of [handleClick]: [board[idx] || status]. *)
Definition click_blocked (idx : nat) (s : State) : bool :=
  truthy (board s !! idx) || nonempty (status s).

(** [handleClick(idx)], dispatched on the render of the state it updates
    (the general case, a call that reads an older render, is
    [handleClickIn] below).  [None] when the write [newBoard[idx] = ...]
    would fall past the end of the board: the source then grows the array,
    which no caller in the component asks for (the squares pass 0..8, the
    timer an index of the board). *)
Definition handleClick (idx : nat) (s : State) : option State :=
  if click_blocked idx s then Some s
  else if bool_decide (idx < length (board s)) then
    let newBoard := <[idx := Some (if xIsNext s then X else O)]> (board s) in
    let result := calculateWinner newBoard in
    match result with
    | Some r =>
        match winner r with
        | Draw =>
            Some {| gameMode := gameMode s;
                    board := newBoard;
                    xIsNext := xIsNext s;
                    status := "Draw!";
                    animWinLine := animWinLine s |}
        | Won m =>
            Some {| gameMode := gameMode s;
                    board := newBoard;
                    xIsNext := xIsNext s;
                    status := mark_string m +:+ " wins!";
                    animWinLine := line r |}
        end
    | None =>
        Some {| gameMode := gameMode s;
                board := newBoard;
                xIsNext := negb (xIsNext s);
                status := status s;
                animWinLine := animWinLine s |}
    end
  else None.

(** The "Back to Mode Select" button: [setGameMode(null)]. *)
Definition backToModeSelect (s : State) : State :=
  {| gameMode := None;
     board := board s;
     xIsNext := xIsNext s;
     status := status s;
     animWinLine := animWinLine s |}.

(** What events on the render shown do to the game: start, restart, leave,
    click.  The timer of the random opponent, which can fire on an older
    render, is part of [play] below. *)
Inductive step : State → State → Prop :=
  | step_startNewGame mode s :
      step s (startNewGame mode s)
  | step_backToModeSelect s :
      step s (backToModeSelect s)
  | step_restartGame s :
      step s (restartGame s)
  | step_handleClick idx s s' :
      handleClick idx s = Some s' → step s s'.

Definition reachable (s : State) : Prop := rtc step initialState s.

(** A run of clicks, one after the other. *)
Fixpoint clicks (idxs : list nat) (s : State) : option State :=
  match idxs with
  | [] => Some s
  | idx :: rest =>
      match handleClick idx s with
      | Some s' => clicks rest s'
      | None => None
      end
  end.

(** The state invariant of play: nine cells, and a status message exactly
    when [calculateWinner] reports a result on the board. *)
Definition consistent (s : State) : Prop :=
  length (board s) = 9 ∧
  (status s = "" ↔ calculateWinner (board s) = None).

(** Three equal marks [m] on the line. *)
Definition line_holds (b : Board) (l : Line) (m : Mark) : Prop :=
  let '(a, b2, c) := l in
  b !! a = Some (Some m) ∧ b !! b2 = Some (Some m) ∧ b !! c = Some (Some m).

Definition line_uniform (b : Board) (l : Line) : Prop :=
  ∃ m, line_holds b l m.

(** [l] is the first line of [ls], in order, that holds three [m]. *)
Definition first_match (b : Board) (ls : list Line) (l : Line) (m : Mark) : Prop :=
  ∃ before after,
    ls = before ++ l :: after ∧
    line_holds b l m ∧
    Forall (λ l', ¬ line_uniform b l') before.

Definition all_filled (b : Board) : Prop :=
  ∀ i, i < 9 → ∃ m, b !! i = Some (Some m).

(** Sample states.  [two_rows] is a board no game produces, with both the
    top and the middle row complete; [x_to_win] is the position after
    X→0, O→3, X→1, O→4. *)
Definition two_rows : Board :=
  [ Some X; Some X; Some X;
    Some O; Some O; Some O;
    None; None; None ].

Definition x_to_win : State :=
  {| gameMode := Some "local";
     board := [ Some X; Some X; None;
                Some O; Some O; None;
                None; None; None ];
     xIsNext := true;
     status := "";
     animWinLine := None |}.

Definition x_has_won : State :=
  {| gameMode := Some "local";
     board := [ Some X; Some X; Some X;
                Some O; Some O; None;
                None; None; None ];
     xIsNext := true;
     status := "X wins!";
     animWinLine := Some (0, 1, 2) |}.

(** ** The rest of the component *)

(** The list [empty] of [makeAIMove]:
    [board.map((v, i) => (v ? null : i)).filter((v) => v !== null)]. *)
Definition emptyCells (b : Board) : list (option nat) :=
  filter (λ v, v ≠ None)
         (imap (λ i v, if truthy (Some v) then None else Some i) b).

(** [makeAIMove()], with [pick] for
    [Math.floor(Math.random() * empty.length)].  The timer runs
    [handleClick(choice)] of the same render, that is on the state the list
    was computed from.  [None] when [empty[pick]] is no index. *)
Definition makeAIMove (pick : nat) (s : State) : option State :=
  if nonempty (status s)
     || negb (bool_decide (gameMode s = Some "ai"))
     || xIsNext s
  then Some s
  else
    let empty := emptyCells (board s) in
    if bool_decide (length empty = 0) then Some s
    else
      match empty !! pick with
      | Some (Some choice) => handleClick choice s
      | _ => None
      end.

(** The effect that runs after a render:
    [if (gameMode === "ai" && !status && !xIsNext) makeAIMove()]. *)
Definition aiEffect (pick : nat) (s : State) : option State :=
  if bool_decide (gameMode s = Some "ai")
     && negb (nonempty (status s))
     && negb (xIsNext s)
  then makeAIMove pick s
  else Some s.

(** The message of [GameStatus()]; [status[0]] is the first character of
    a status that is not empty. *)
Definition GameStatus (s : State) : string :=
  if bool_decide (status s = "Draw!") then "It's a draw!"
  else
    match status s with
    | String c _ => "Winner: " +:+ String c EmptyString
    | EmptyString =>
        if bool_decide (gameMode s = Some "ai")
        then (if xIsNext s then "Your turn (X)" else "AI's turn (O)")
        else (if xIsNext s then "Player X's turn" else "Player O's turn")
    end.

(** The mark the next accepted click writes: [xIsNext ? "X" : "O"]. *)
Definition mover (s : State) : Mark := if xIsNext s then X else O.

(** How many cells of the board hold [v]. *)
Definition count_cells (v : option Mark) (b : Board) : nat :=
  length (filter (λ c, c = v) b).

(** Index [i] lies on the line. *)
Definition on_line (i : nat) (l : Line) : Prop :=
  let '(a, b2, c) := l in i = a ∨ i = b2 ∨ i = c.

(** The message, the highlighted line and the board agree. *)
Definition in_sync (s : State) : Prop :=
  length (board s) = 9 ∧
  match calculateWinner (board s) with
  | None => status s = "" ∧ animWinLine s = None
  | Some r =>
      match winner r with
      | Draw => status s = "Draw!" ∧ animWinLine s = None
      | Won m => status s = mark_string m +:+ " wins!" ∧ animWinLine s = line r
      end
  end.

(** X and O have moved in turn. *)
Definition balanced (s : State) : Prop :=
  count_cells (Some X) (board s) =
    count_cells (Some O) (board s)
    + (if xorb (xIsNext s) (nonempty (status s)) then 0 else 1).

(** A game played to a draw: X→0, O→1, X→2, O→4, X→3, O→5, X→7, O→6,
    X→8. *)
Definition drawn_game : State :=
  {| gameMode := Some "local";
     board := [ Some X; Some O; Some X;
                Some X; Some O; Some O;
                Some O; Some X; Some X ];
     xIsNext := true;
     status := "Draw!";
     animWinLine := None |}.

(** The AI to move after X took the centre. *)
Definition ai_to_move : State :=
  {| gameMode := Some "ai";
     board := [ None; None; None;
                None; Some X; None;
                None; None; None ];
     xIsNext := false;
     status := "";
     animWinLine := None |}.

(** ** Clicks that read an older render *)

(** [handleClick] is a closure of the render it was created in: it reads
    [board], [status] and [xIsNext] of that render, and each setter it
    calls replaces one field of the state current when it runs.
    [handleClickIn render idx current] is that call; [handleClick idx s]
    above is the case of a click dispatched on the render of [s] itself,
    as the squares' [onClick] does.  [None] as for [handleClick]. *)
Definition handleClickIn (render : State) (idx : nat) (current : State) : option State :=
  if click_blocked idx render then Some current
  else if bool_decide (idx < length (board render)) then
    let newBoard := <[idx := Some (if xIsNext render then X else O)]> (board render) in
    let result := calculateWinner newBoard in
    match result with
    | Some r =>
        match winner r with
        | Draw =>
            Some {| gameMode := gameMode current;
                    board := newBoard;
                    xIsNext := xIsNext current;
                    status := "Draw!";
                    animWinLine := animWinLine current |}
        | Won m =>
            Some {| gameMode := gameMode current;
                    board := newBoard;
                    xIsNext := xIsNext current;
                    status := mark_string m +:+ " wins!";
                    animWinLine := line r |}
        end
    | None =>
        Some {| gameMode := gameMode current;
                board := newBoard;
                xIsNext := negb (xIsNext render);
                status := status current;
                animWinLine := animWinLine current |}
    end
  else None.

(** The callback of the timer [makeAIMove] sets: [empty] and [handleClick]
    are those of the render that queued it. *)
Definition aiTimer (render : State) (pick : nat) (current : State) : option State :=
  match emptyCells (board render) !! pick with
  | Some (Some choice) => handleClickIn render choice current
  | _ => None
  end.

(** The guard under which a render queues the timer. *)
Definition ai_queues (s : State) : Prop :=
  gameMode s = Some "ai" ∧ status s = "" ∧ xIsNext s = false ∧
  emptyCells (board s) ≠ [].

(** The component with its timers: the state shown, and the renders whose
    timer may still fire.  Timers are never cancelled in the source. *)
Record Game : Type := mkGame {
  shown : State;
  timers : list State
}.

(** What can happen: an event on the render shown, the effect of the
    render shown queueing a timer, and a queued timer firing. *)
Inductive play : Game → Game → Prop :=
  | play_event g s' :
      step (shown g) s' →
      play g {| shown := s'; timers := timers g |}
  | play_queue g :
      ai_queues (shown g) →
      play g {| shown := shown g; timers := shown g :: timers g |}
  | play_timer g render pick s' :
      render ∈ timers g →
      pick < length (emptyCells (board render)) →
      aiTimer render pick (shown g) = Some s' →
      play g {| shown := s'; timers := timers g |}.

Definition start : Game := {| shown := initialState; timers := [] |}.

Definition playable (g : Game) : Prop := rtc play start g.

(** Sample states of a game against the random opponent in which the user
    clicks twice while the timer is pending: the render that queued the
    timer (X→0, O→3, X→1), the state after the user's clicks on 4 and 2,
    and the state the timer then leaves with the pick of cell 4. *)
Definition ai_render : State :=
  {| gameMode := Some "ai";
     board := [ Some X; Some X; None;
                Some O; None; None;
                None; None; None ];
     xIsNext := false;
     status := "";
     animWinLine := None |}.

Definition ai_overtaken : State :=
  {| gameMode := Some "ai";
     board := [ Some X; Some X; Some X;
                Some O; Some O; None;
                None; None; None ];
     xIsNext := true;
     status := "X wins!";
     animWinLine := Some (0, 1, 2) |}.

Definition ai_after_timer : State :=
  {| gameMode := Some "ai";
     board := [ Some X; Some X; None;
                Some O; Some O; None;
                None; None; None ];
     xIsNext := true;
     status := "X wins!";
     animWinLine := Some (0, 1, 2) |}.

#[global] Instance ai_queues_dec (s : State) : Decision (ai_queues s).
Proof. unfold ai_queues. apply _. Defined.

(** A schedule, to run the component on: the things [play] allows, by
    name.  [Fire k pick] fires the [k]-th queued timer with the random
    index [pick]. *)
Inductive Move : Type :=
  | Start (mode : option string)
  | Click (idx : nat)
  | Queue
  | Fire (k pick : nat).

Definition move (m : Move) (g : Game) : option Game :=
  match m with
  | Start mode =>
      Some {| shown := startNewGame mode (shown g); timers := timers g |}
  | Click idx =>
      match handleClick idx (shown g) with
      | Some s' => Some {| shown := s'; timers := timers g |}
      | None => None
      end
  | Queue =>
      if decide (ai_queues (shown g))
      then Some {| shown := shown g; timers := shown g :: timers g |}
      else None
  | Fire k pick =>
      match timers g !! k with
      | Some render =>
          if decide (pick < length (emptyCells (board render))) then
            match aiTimer render pick (shown g) with
            | Some s' => Some {| shown := s'; timers := timers g |}
            | None => None
            end
          else None
      | None => None
      end
  end.

Fixpoint moves (ms : list Move) (g : Game) : option Game :=
  match ms with
  | [] => Some g
  | m :: rest =>
      match move m g with
      | Some g' => moves rest g'
      | None => None
      end
  end.

(** The user starts a game against the random opponent and takes cell 0;
    the timer answers on cell 3; the user takes cell 1, and then, before
    the next timer fires, clicks cell 4 and cell 2; the timer fires. *)
Definition overtaking : list Move :=
  [ Start (Some "ai"); Click 0; Queue; Fire 0 2; Click 1; Queue;
    Click 4; Click 2; Fire 0 1 ].

(** What stays true of the state shown, timers or not, and of the renders
    that queued a timer. *)
Definition open_ok (s : State) : Prop :=
  length (board s) = 9 ∧
  (status s = "" → calculateWinner (board s) = None ∧ animWinLine s = None).

Definition fair (g : Game) : Prop :=
  open_ok (shown g) ∧ Forall (λ render, length (board render) = 9) (timers g).

End TicTacToe.

(** * Properties of the Snake & Ladder engine *)

Module SnakeLadderProofs.
Import SnakeLadder.

Local Open Scope Z_scope.

(** ** The portal loop *)

Lemma resolvePortals_unfold (pos : Z) :
  resolvePortals pos =
    if decide (pos = portal_or BOARD_PORTALS pos)
    then portal_or BOARD_PORTALS pos
    else resolvePortals (portal_or BOARD_PORTALS pos).
Proof.
  rewrite resolvePortals_equation_1.
  destruct (decide (pos = portal_or BOARD_PORTALS pos)); reflexivity.
Qed.

Lemma resolvePortals_plain (pos : Z) :
  BOARD_PORTALS !! pos = None → resolvePortals pos = pos.
Proof.
  intros H. rewrite resolvePortals_unfold, (portal_or_plain _ _ H).
  destruct (decide (pos = pos)); [reflexivity | congruence].
Qed.

Lemma resolvePortals_source (pos v : Z) :
  BOARD_PORTALS !! pos = Some v → resolvePortals pos = v.
Proof.
  intros H. rewrite resolvePortals_unfold, (portal_or_source _ _ H).
  apply BOARD_PORTALS_target in H as (Hv & _ & Hne & _).
  destruct (decide (pos = v)); [congruence |].
  apply resolvePortals_plain, Hv.
Qed.

(** On this table the loop is a single hop. *)
Lemma resolvePortals_one_hop (pos : Z) :
  resolvePortals pos = portal_or BOARD_PORTALS pos.
Proof.
  destruct (BOARD_PORTALS !! pos) as [v|] eqn:H.
  - rewrite (resolvePortals_source _ _ H), (portal_or_source _ _ H). reflexivity.
  - rewrite (resolvePortals_plain _ H), (portal_or_plain _ _ H). reflexivity.
Qed.

(** The result of the loop is never a portal source. *)
Lemma resolvePortals_lands (pos : Z) :
  BOARD_PORTALS !! resolvePortals pos = None.
Proof.
  destruct (BOARD_PORTALS !! pos) as [v|] eqn:H.
  - rewrite (resolvePortals_source _ _ H).
    apply BOARD_PORTALS_target in H as (Hv & _). exact Hv.
  - rewrite (resolvePortals_plain _ H). exact H.
Qed.

(** More budget never changes what the loop returns. *)
Lemma resolve_loop_mono (tbl : gmap Z Z) (n m : nat) (pos r : Z) :
  resolve_loop tbl n pos = Some r → (n ≤ m)%nat → resolve_loop tbl m pos = Some r.
Proof.
  revert m pos. induction n as [|n IH]; intros m pos Hrun Hle; [discriminate |].
  destruct m as [|m]; [lia |]. simpl in *.
  destruct (bool_decide (pos ≠ portal_or tbl pos)); [| exact Hrun].
  apply IH; [exact Hrun | lia].
Qed.

(** The budgeted loop on [BOARD_PORTALS] and [resolvePortals] are the same
    function as soon as the budget allows two iterations. *)
Lemma resolve_loop_BOARD_PORTALS (n : nat) (pos : Z) :
  resolve_loop BOARD_PORTALS (S (S n)) pos = Some (resolvePortals pos).
Proof.
  apply (resolve_loop_mono _ 2); [| lia].
  destruct (BOARD_PORTALS !! pos) as [v|] eqn:H.
  - rewrite (resolvePortals_source _ _ H). cbn [resolve_loop].
    rewrite (portal_or_source _ _ H).
    apply BOARD_PORTALS_target in H as (Hv & _ & Hne & _).
    rewrite bool_decide_eq_true_2 by congruence.
    rewrite (portal_or_plain _ _ Hv).
    rewrite bool_decide_eq_false_2 by (intros Hc; apply Hc; reflexivity).
    reflexivity.
  - rewrite (resolvePortals_plain _ H). cbn [resolve_loop].
    rewrite (portal_or_plain _ _ H).
    rewrite bool_decide_eq_false_2 by (intros Hc; apply Hc; reflexivity).
    reflexivity.
Qed.

(** On the cyclic table the loop bounces between 2 and 3 and never leaves. *)
Lemma cyclic_loop_spins (fuel : nat) (pos : Z) :
  pos = 2 ∨ pos = 3 → resolve_loop cyclic_portals fuel pos = None.
Proof.
  revert pos. induction fuel as [|fuel IH]; intros pos Hpos; [reflexivity |].
  destruct Hpos as [-> | ->]; simpl.
  - change (portal_or cyclic_portals 2) with 3.
    rewrite bool_decide_eq_true_2 by lia. apply IH. right. reflexivity.
  - change (portal_or cyclic_portals 3) with 2.
    rewrite bool_decide_eq_true_2 by lia. apply IH. left. reflexivity.
Qed.

(** C6. [resolvePortals] is idempotent: for every position,
    resolving twice gives what resolving once gives; and on the table of the
    source [resolvePortals 43 = 17] and [resolvePortals 2 = 23]. *)
Theorem resolvePortals_idempotent :
  (∀ p : Z, resolvePortals (resolvePortals p) = resolvePortals p) ∧
  resolvePortals 43 = 17 ∧
  resolvePortals 2 = 23.
Proof.
  split; [| split].
  - intros p. apply resolvePortals_plain, resolvePortals_lands.
  - apply resolvePortals_source. reflexivity.
  - apply resolvePortals_source. reflexivity.
Qed.

(** C7, as the source has it.  [resolvePortals] returns for every
    position because of the table, not because of a cap: on
    [BOARD_PORTALS] the loop leaves within two iterations whatever the input
    (no portal ends on the start of another), and the value it returns is
    [resolvePortals pos]; the loop itself counts nothing and has no error
    exit, so on a table with a cycle no number of iterations makes it
    return. *)
Theorem resolvePortals_terminates_by_table :
  (∀ (pos : Z) (extra : nat),
     resolve_loop BOARD_PORTALS (2 + extra) pos = Some (resolvePortals pos)) ∧
  (∀ fuel : nat, resolve_loop cyclic_portals fuel 2 = None).
Proof.
  split.
  - intros pos extra. apply resolve_loop_BOARD_PORTALS.
  - intros fuel. apply cyclic_loop_spins. left. reflexivity.
Qed.

(** C7, refuted as stated: the loop has no iteration bound and no
    failure outcome.  On the cyclic table [{2: 3, 3: 2}] and position 2 it
    yields no result (neither a position nor an error) within any number
    of iterations, 16 included. *)
Lemma resolve_loop_has_no_cap :
  resolve_loop cyclic_portals 16 2 = None ∧
  ¬ ∃ (fuel : nat) (r : Z), resolve_loop cyclic_portals fuel 2 = Some r.
Proof.
  split; [reflexivity |].
  intros (fuel & r & H).
  rewrite cyclic_loop_spins in H by (left; reflexivity). discriminate.
Qed.

(** ** Rolling *)

Lemma resolveRoll_eq (d : Z) (s : State) (cur : Z) :
  positions s !! turn s = Some cur →
  resolveRoll d s =
    Some {| positions := <[turn s := resolvePortals (candidate cur d)]> (positions s);
            turn := turn s;
            rolling := false;
            dice := Some d;
            status := if bool_decide (resolvePortals (candidate cur d) = WIN_CELL)
                      then win_status (turn s) else "";
            winner := if bool_decide (resolvePortals (candidate cur d) = WIN_CELL)
                      then Some (turn s) else None |}.
Proof.
  intros H. unfold resolveRoll, candidate. rewrite H. cbv zeta.
  destruct (bool_decide (resolvePortals _ = WIN_CELL)); reflexivity.
Qed.

Lemma resolveRoll_Some (d : Z) (s s' : State) :
  resolveRoll d s = Some s' →
  ∃ cur, positions s !! turn s = Some cur ∧
         positions s' = <[turn s := resolvePortals (candidate cur d)]> (positions s) ∧
         positions s' !! turn s = Some (resolvePortals (candidate cur d)) ∧
         turn s' = turn s ∧
         winner s' = (if bool_decide (resolvePortals (candidate cur d) = WIN_CELL)
                      then Some (turn s) else None).
Proof.
  intros H. destruct (positions s !! turn s) as [cur|] eqn:Hcur.
  - rewrite (resolveRoll_eq _ _ _ Hcur) in H. injection H as <-.
    exists cur. simpl. repeat split; try reflexivity.
    apply list_lookup_insert_eq. apply lookup_lt_Some in Hcur. exact Hcur.
  - unfold resolveRoll in H. rewrite Hcur in H. discriminate.
Qed.

(** Only the cell 100 resolves to 100. *)
Lemma resolvePortals_100 (c : Z) :
  resolvePortals c = 100 → c = 100.
Proof.
  destruct (BOARD_PORTALS !! c) as [v|] eqn:H.
  - rewrite (resolvePortals_source _ _ H).
    apply BOARD_PORTALS_target in H. lia.
  - rewrite (resolvePortals_plain _ H). trivial.
Qed.

Lemma resolvePortals_resting (c : Z) :
  1 ≤ c ≤ 100 → resting (resolvePortals c).
Proof.
  intros Hc. split; [| apply resolvePortals_lands].
  destruct (BOARD_PORTALS !! c) as [v|] eqn:H.
  - rewrite (resolvePortals_source _ _ H).
    apply BOARD_PORTALS_target in H. lia.
  - rewrite (resolvePortals_plain _ H). exact Hc.
Qed.

Lemma candidate_range (cur d : Z) :
  1 ≤ cur ≤ 100 → 1 ≤ d ≤ 6 → 1 ≤ candidate cur d ≤ 100.
Proof.
  intros Hc Hd. unfold candidate, WIN_CELL. case_bool_decide; lia.
Qed.

(** The guard does stop a roll while one is in progress, and after the
    second player (index 1) has won. *)
Lemma handleRollDice_blocked (s : State) :
  rolling s = true ∨ winner s = Some 1%nat → handleRollDice s = s.
Proof.
  intros [H | H]; unfold handleRollDice, roll_blocked; rewrite H.
  - reflexivity.
  - rewrite orb_true_r. reflexivity.
Qed.

(** ** Reachable states *)

Lemma well_formed_initialState : well_formed initialState.
Proof.
  split; [reflexivity |]. split; [simpl; lia |].
  repeat constructor; simpl; try lia; reflexivity.
Qed.

Lemma well_formed_step (s s' : State) :
  well_formed s → step s s' → well_formed s'.
Proof.
  intros (Hlen & Hturn & Hpos) Hstep.
  destruct Hstep as [s | s | d s s' Hd Hres | s].
  - apply well_formed_initialState.
  - unfold handleRollDice. destruct (roll_blocked s); repeat split; assumption.
  - apply resolveRoll_Some in Hres as (cur & Hcur & Hp & _ & Ht & _).
    unfold well_formed. rewrite Hp, Ht, length_insert.
    split; [exact Hlen |]. split; [exact Hturn |].
    apply Forall_insert; [exact Hpos |].
    apply resolvePortals_resting, candidate_range; [| exact Hd].
    apply (Forall_lookup_1 _ _ _ _ Hpos Hcur).
  - unfold advanceTurn. destruct (winner s); [repeat split; assumption |].
    repeat split; simpl; try assumption. case_bool_decide; lia.
Qed.

Lemma reachable_well_formed (s : State) :
  reachable s → well_formed s.
Proof.
  unfold reachable. revert s. apply rtc_ind_r.
  - apply well_formed_initialState.
  - intros s1 s2 _ Hstep IH. apply (well_formed_step s1); assumption.
Qed.

(** A whole roll, as the handler and its timers run it, is made of steps. *)
Lemma playRoll_steps (d : Z) (s s' : State) :
  1 ≤ d ≤ 6 → playRoll d s = Some s' → rtc step s s'.
Proof.
  intros Hd H. unfold playRoll in H.
  destruct (roll_blocked s) eqn:Hb.
  - injection H as <-. apply rtc_refl.
  - destruct (resolveRoll d (beginRoll s)) as [s1|] eqn:Hres; [| discriminate].
    injection H as <-.
    eapply rtc_l; [apply (step_handleRollDice s) |].
    unfold handleRollDice. rewrite Hb.
    eapply rtc_l; [apply (step_resolveRoll d _ s1 Hd Hres) |].
    apply rtc_once, step_advanceTurn.
Qed.

Lemma playRolls_steps (rolls : list Z) (s s' : State) :
  Forall (λ d, 1 ≤ d ≤ 6) rolls → playRolls rolls s = Some s' → rtc step s s'.
Proof.
  intros Hall. revert s. induction Hall as [| d rest Hd _ IH]; intros s H; simpl in H.
  - injection H as <-. apply rtc_refl.
  - destruct (playRoll d s) as [s1|] eqn:H1; [| discriminate].
    etrans; [apply (playRoll_steps d s s1 Hd H1) | apply IH, H].
Qed.

Lemma first_player_won_reachable : reachable first_player_won.
Proof.
  apply (playRolls_steps [5; 3; 6; 3; 6; 3; 4]).
  - repeat constructor; lia.
  - vm_compute. reflexivity.
Qed.

(** C1, where the code departs from it.  The guard reads
    [state.winner] for its truthiness, and the first player's index 0 is
    falsy: in the reachable state [first_player_won] (winner 0, no roll in
    progress) [handleRollDice] is not ignored, it starts a new roll and the
    state changes ([rolling] becomes [true], [dice] becomes [null]). *)
Theorem handleRollDice_after_first_player_wins :
  reachable first_player_won ∧
  winner first_player_won = Some 0%nat ∧
  handleRollDice first_player_won =
    {| positions := [100; 10];
       turn := 0;
       rolling := true;
       dice := None;
       status := "Player 1 wins!";
       winner := Some 0%nat |} ∧
  handleRollDice first_player_won ≠ first_player_won.
Proof.
  split; [apply first_player_won_reachable |].
  split; [reflexivity |]. split; [reflexivity |].
  vm_compute. discriminate.
Qed.

(** ** Overshoot *)

(** Of the cells a roll can overshoot from, 95 to 100, only 98 is a portal
    source. *)
Lemma overshoot_cells_plain (p d : Z) :
  p ≤ 100 → d ≤ 6 → p + d > 100 → p ≠ 98 → BOARD_PORTALS !! p = None.
Proof.
  intros Hp Hd Hover Hne.
  assert (p = 95 ∨ p = 96 ∨ p = 97 ∨ p = 99 ∨ p = 100) as Hcases by lia.
  destruct Hcases as [-> | [-> | [-> | [-> | ->]]]]; reflexivity.
Qed.

(** An overshooting roll from a cell that is no portal source changes no
    position. *)
Lemma overshoot_on_plain_cell (d p : Z) (s : State) :
  positions s !! turn s = Some p →
  p + d > 100 →
  BOARD_PORTALS !! p = None →
  ∃ s', resolveRoll d s = Some s' ∧
        positions s' !! turn s = Some p ∧
        positions s' = positions s.
Proof.
  intros Hcur Hover Hplain.
  rewrite (resolveRoll_eq _ _ _ Hcur). eexists. split; [reflexivity |]. simpl.
  assert (Hc : candidate p d = p).
  { unfold candidate, WIN_CELL. rewrite bool_decide_eq_false_2 by lia. reflexivity. }
  rewrite Hc, (resolvePortals_plain _ Hplain).
  split.
  - apply list_lookup_insert_eq. apply lookup_lt_Some in Hcur. exact Hcur.
  - apply list_insert_id. exact Hcur.
Qed.

(** Outside play the portal after the overshoot test shows: with a token
    put on 98, the head of the snake to 40, an overshooting roll does not
    leave it there.  No reachable state has a token on 98. *)
Lemma overshoot_from_98_slides_to_40 :
  positions on_snake_head !! turn on_snake_head = Some 98 ∧
  98 + 3 > WIN_CELL ∧
  resolveRoll 3 on_snake_head =
    Some {| positions := [40; 1];
            turn := 0;
            rolling := false;
            dice := Some 3;
            status := "";
            winner := None |}.
Proof.
  split; [reflexivity |]. split; [unfold WIN_CELL; lia |].
  vm_compute. reflexivity.
Qed.

(** The same for any state, reachable or not, as long as the token is
    not on 98. *)
Theorem overshoot_discarded (d p : Z) (s : State) :
  positions s !! turn s = Some p →
  1 ≤ p ≤ 100 →
  1 ≤ d ≤ 6 →
  p + d > 100 →
  p ≠ 98 →
  ∃ s', resolveRoll d s = Some s' ∧
        positions s' !! turn s = Some p ∧
        positions s' = positions s.
Proof.
  intros Hcur Hp Hd Hover Hne.
  apply overshoot_on_plain_cell; [exact Hcur | exact Hover |].
  apply (overshoot_cells_plain p d); lia.
Qed.

Lemma overshoot_discarded_at_95 :
  ∃ s', resolveRoll 6 (near_finish 95) = Some s' ∧
        positions s' !! turn (near_finish 95) = Some 95 ∧
        positions s' = positions (near_finish 95).
Proof.
  apply (overshoot_discarded 6 95 (near_finish 95)).
  - reflexivity.
  - lia.
  - lia.
  - lia.
  - lia.
Defined.

(** In play the exception never shows: a reachable state has no token on
    98, so every overshooting roll leaves the position as it is. *)
Lemma overshoot_discarded_in_play (d p : Z) (s : State) :
  reachable s →
  positions s !! turn s = Some p →
  1 ≤ d ≤ 6 →
  p + d > 100 →
  ∃ s', resolveRoll d s = Some s' ∧ positions s' = positions s.
Proof.
  intros Hreach Hcur Hd Hover.
  apply reachable_well_formed in Hreach as (_ & _ & Hpos).
  destruct (Forall_lookup_1 _ _ _ _ Hpos Hcur) as [_ Hplain].
  destruct (overshoot_on_plain_cell d p s Hcur Hover Hplain)
    as (s' & Hres & _ & Hsame).
  exists s'. split; assumption.
Qed.

Lemma first_player_on_95_reachable : reachable first_player_on_95.
Proof.
  apply (playRolls_steps
           [5; 3; 6; 3; 4; 3; 6; 3; 6; 3; 5; 3; 6; 3; 5; 3; 6; 3; 6; 3]).
  - repeat constructor; lia.
  - vm_compute. reflexivity.
Qed.

(** C4. In every state the component can reach, whatever position
    [p] the current player is on (it is in [1,100]) and whatever the dice
    value [d] in [1,6]: if [p + d > 100] the roll resolves and leaves the
    current player's position at [p], and every position as it was; the
    move is discarded, not clamped to 100.  Position 95 with dice value 6,
    reached after twenty rolls, stays 95. *)
Theorem overshoot_leaves_position (d p : Z) (s : State) :
  reachable s →
  positions s !! turn s = Some p →
  1 ≤ d ≤ 6 →
  p + d > 100 →
  1 ≤ p ≤ 100 ∧
  ∃ s', resolveRoll d s = Some s' ∧
        positions s' !! turn s = Some p ∧
        positions s' = positions s.
Proof.
  intros Hreach Hcur Hd Hover.
  apply reachable_well_formed in Hreach as (_ & _ & Hpos).
  destruct (Forall_lookup_1 _ _ _ _ Hpos Hcur) as [Hp Hplain].
  split; [exact Hp |].
  apply (overshoot_on_plain_cell d p s Hcur Hover Hplain).
Qed.

Lemma overshoot_leaves_position_at_95 :
  reachable first_player_on_95 ∧
  1 ≤ 95 ≤ 100 ∧
  ∃ s', resolveRoll 6 first_player_on_95 = Some s' ∧
        positions s' !! turn first_player_on_95 = Some 95 ∧
        positions s' = positions first_player_on_95.
Proof.
  split; [apply first_player_on_95_reachable |].
  apply (overshoot_leaves_position 6 95 first_player_on_95).
  - apply first_player_on_95_reachable.
  - reflexivity.
  - lia.
  - lia.
Defined.

(** ** Winning and the turn *)

(** C5. Whenever a roll resolves with the current player on 100,
    [winner] is that player's index, no portal moved the token (the value
    before portals is already 100, and 100 is no portal source), and the
    turn timer leaves the state, hence the turn, as it is.  Whenever it
    resolves with the current player elsewhere, no winner is set and the
    turn timer hands the turn to the other player.  Position 97 with dice
    value 3 is an instance of the first case. *)
Theorem winning_roll_and_turn (d : Z) (s s' : State) :
  resolveRoll d s = Some s' →
  (positions s' !! turn s = Some WIN_CELL →
     winner s' = Some (turn s) ∧
     (∃ cur, positions s !! turn s = Some cur ∧ candidate cur d = WIN_CELL) ∧
     BOARD_PORTALS !! WIN_CELL = None ∧
     advanceTurn s' = s' ∧
     turn (advanceTurn s') = turn s) ∧
  (∀ p, positions s' !! turn s = Some p → p ≠ WIN_CELL →
     winner s' = None ∧
     turn (advanceTurn s') = (if bool_decide (turn s = 0) then 1 else 0)%nat ∧
     turn (advanceTurn s') ≠ turn s) ∧
  (resolveRoll 3 (near_finish 97)
     = Some {| positions := [100; 1];
               turn := 0;
               rolling := false;
               dice := Some 3;
               status := "Player 1 wins!";
               winner := Some 0%nat |}).
Proof.
  intros Hres.
  apply resolveRoll_Some in Hres as (cur & Hcur & _ & Hnew & Ht & Hw).
  split; [| split].
  - intros H100. rewrite Hnew in H100. injection H100 as H100.
    rewrite H100, bool_decide_eq_true_2 in Hw by reflexivity.
    split; [exact Hw |]. split.
    { exists cur. split; [exact Hcur |]. apply resolvePortals_100, H100. }
    split; [reflexivity |].
    unfold advanceTurn. rewrite Hw. split; [reflexivity | exact Ht].
  - intros p Hp Hne. rewrite Hnew in Hp. injection Hp as Hp.
    rewrite Hp, bool_decide_eq_false_2 in Hw by exact Hne.
    split; [exact Hw |].
    unfold advanceTurn. rewrite Hw. simpl. rewrite Ht.
    split; [reflexivity |]. case_bool_decide; lia.
  - vm_compute. reflexivity.
Qed.

Lemma winning_roll_and_turn_from_97 :
  resolveRoll 3 (near_finish 97) =
    Some {| positions := [100; 1]; turn := 0; rolling := false; dice := Some 3;
            status := "Player 1 wins!"; winner := Some 0%nat |} ∧
  winner {| positions := [100; 1]; turn := 0; rolling := false; dice := Some 3;
            status := "Player 1 wins!"; winner := Some 0%nat |} = Some 0%nat.
Proof.
  assert (H : resolveRoll 3 (near_finish 97) =
    Some {| positions := [100; 1]; turn := 0; rolling := false; dice := Some 3;
            status := "Player 1 wins!"; winner := Some 0%nat |})
    by (vm_compute; reflexivity).
  split; [exact H |].
  apply (winning_roll_and_turn 3 (near_finish 97) _ H). reflexivity.
Defined.

(** ** The invariant of play *)

(** C9. In every state reachable from the initial state by restarts,
    roll starts and the two timer callbacks (with dice values 1..6), there
    are two positions, each an integer in [1,100] that is no portal source
    and that [resolvePortals] maps to itself. *)
Theorem reachable_positions_resting (s : State) :
  reachable s →
  length (positions s) = 2%nat ∧
  ∀ p, p ∈ positions s →
       1 ≤ p ≤ 100 ∧ BOARD_PORTALS !! p = None ∧ resolvePortals p = p.
Proof.
  intros (Hlen & _ & Hpos)%reachable_well_formed.
  split; [exact Hlen |].
  intros p Hp. rewrite Forall_forall in Hpos.
  destruct (Hpos p Hp) as [Hrange Hplain].
  split; [exact Hrange |]. split; [exact Hplain |].
  apply resolvePortals_plain, Hplain.
Qed.

Lemma reachable_positions_resting_at_win :
  length (positions first_player_won) = 2%nat ∧
  ∀ p, p ∈ positions first_player_won →
       1 ≤ p ≤ 100 ∧ BOARD_PORTALS !! p = None ∧ resolvePortals p = p.
Proof.
  apply (reachable_positions_resting first_player_won).
  apply (playRolls_steps [5; 3; 6; 3; 6; 3; 4]).
  - repeat constructor; lia.
  - vm_compute. reflexivity.
Defined.

(** ** Frame *)

(** C10. A roll resolves (whenever the current player has a
    position) into a state whose positions differ from the old ones at most
    at the rolling player's index: every other entry is the same before
    and after, also once the turn timer has run. *)
Theorem resolveRoll_frame (d : Z) (s : State) :
  (turn s < length (positions s))%nat →
  ∃ s', resolveRoll d s = Some s' ∧
        length (positions s') = length (positions s) ∧
        ∀ j : nat, j ≠ turn s →
          positions s' !! j = positions s !! j ∧
          positions (advanceTurn s') !! j = positions s !! j.
Proof.
  intros Hlt. destruct (lookup_lt_is_Some_2 _ _ Hlt) as [cur Hcur].
  rewrite (resolveRoll_eq _ _ _ Hcur). eexists. split; [reflexivity |].
  simpl. split; [apply length_insert |].
  intros j Hj.
  assert (Hkeep : <[turn s := resolvePortals (candidate cur d)]> (positions s) !! j
                  = positions s !! j)
    by (apply list_lookup_insert_ne; congruence).
  split; [exact Hkeep |].
  unfold advanceTurn. simpl.
  destruct (bool_decide (resolvePortals (candidate cur d) = WIN_CELL)); exact Hkeep.
Qed.

Lemma resolveRoll_frame_first_roll :
  ∃ s', resolveRoll 5 initialState = Some s' ∧
        length (positions s') = length (positions initialState) ∧
        ∀ j : nat, j ≠ turn initialState →
          positions s' !! j = positions initialState !! j ∧
          positions (advanceTurn s') !! j = positions initialState !! j.
Proof.
  apply (resolveRoll_frame 5 initialState). simpl. lia.
Defined.

(** ** The board layout *)

Lemma generateBoard_closed_form :
  generateBoard = (λ i, cell_at i <$> seq 0 10) <$> seq 0 10.
Proof. vm_compute. reflexivity. Qed.

Lemma generateBoard_cells_in_range :
  Forall (λ c, 1 ≤ c ≤ 100) (concat generateBoard).
Proof.
  apply Forall_forall. intros c Hc.
  assert (Hb : forallb (λ c, (1 <=? c) && (c <=? 100)) (concat generateBoard) = true)
    by (vm_compute; reflexivity).
  rewrite forallb_forall in Hb. apply list_elem_of_In, Hb in Hc. lia.
Qed.

Lemma generateBoard_cells_cover :
  Forall (λ c, c ∈ concat generateBoard) (seqZ 1 100).
Proof.
  apply Forall_forall. intros c Hc.
  assert (Hb : forallb (λ c, bool_decide (c ∈ concat generateBoard)) (seqZ 1 100) = true)
    by (vm_compute; reflexivity).
  rewrite forallb_forall in Hb. apply list_elem_of_In, Hb in Hc.
  apply bool_decide_eq_true in Hc. exact Hc.
Qed.

(** X1. [generateBoard] lays out ten rows of ten cells in which every
    number from 1 to 100 stands exactly once, 100 top left; rows alternate
    in direction, so that the cell after [c] is always a neighbour of [c]:
    next to it in the same row, or right above it at the end of a row. *)
Theorem generateBoard_layout :
  generateBoard = (λ i, cell_at i <$> seq 0 10) <$> seq 0 10 ∧
  NoDup (concat generateBoard) ∧
  (∀ c, c ∈ concat generateBoard ↔ 1 ≤ c ≤ 100) ∧
  (∀ (i j : nat) (c : Z),
     generateBoard !! i ≫= (.!! j) = Some c → c ≠ 100 →
     generateBoard !! i ≫= (.!! S j) = Some (c + 1) ∨
     (∃ j', j = S j' ∧ generateBoard !! i ≫= (.!! j') = Some (c + 1)) ∨
     (∃ i', i = S i' ∧ generateBoard !! i' ≫= (.!! j) = Some (c + 1))).
Proof.
  split; [apply generateBoard_closed_form |].
  split; [apply (bool_decide_unpack _); vm_compute; exact I |].
  split.
  - intros c. split.
    + intros Hc. apply (proj1 (Forall_forall _ _) generateBoard_cells_in_range c Hc).
    + intros Hc. apply (proj1 (Forall_forall _ _) generateBoard_cells_cover c).
      apply elem_of_seqZ. lia.
  - intros i j c. remember generateBoard as g eqn:Hg. vm_compute in Hg. subst g.
    do 10 (destruct i as [| i];
           [ do 10 (destruct j as [| j];
                    [ intros [= <-] Hne;
                      first [ left; reflexivity
                            | right; left; eexists; split; reflexivity
                            | right; right; eexists; split; reflexivity
                            | destruct Hne; reflexivity ] | ]);
             simpl; discriminate | ]).
    simpl. discriminate.
Qed.

(** ** Cell classes *)

Lemma string_app_assoc (a b c : string) : a +:+ (b +:+ c) = (a +:+ b) +:+ c.
Proof.
  induction a as [| ch a IH]; [reflexivity |].
  change (String ch (a +:+ (b +:+ c)) = String ch ((a +:+ b) +:+ c)).
  f_equal. exact IH.
Qed.

Lemma string_app_empty_r (a : string) : a +:+ "" = a.
Proof.
  induction a as [| ch a IH]; [reflexivity |].
  change (String ch (a +:+ "") = String ch a).
  f_equal. exact IH.
Qed.

(** X2. The portal class of a cell follows the engine.  On
    [BOARD_PORTALS], and for every cell but the finish, [cellClass] is the
    class the cell has on a board without portals, followed by " ladder"
    exactly when [resolvePortals] moves a token up from the cell and by
    " snake" exactly when it moves it down; the finish cell carries no
    portal class. *)
Theorem cellClass_portal_kind (cell : Z) (playerPos : list Z) :
  cellClass cell playerPos BOARD_PORTALS =
    if bool_decide (cell = WIN_CELL) then cellClass cell playerPos ∅
    else cellClass cell playerPos ∅ +:+
           (if bool_decide (resolvePortals cell > cell) then " ladder"
            else if bool_decide (resolvePortals cell < cell) then " snake"
            else "").
Proof.
  unfold cellClass. rewrite lookup_empty.
  set (extra := if bool_decide (Some cell = playerPos !! 0%nat) && _ then _ else _).
  destruct (BOARD_PORTALS !! cell) as [v|] eqn:Hv.
  - rewrite (resolvePortals_source _ _ Hv).
    apply BOARD_PORTALS_target in Hv as (_ & Hrange & Hne & Hcell).
    rewrite (bool_decide_eq_false_2 (v = 0)) by lia.
    rewrite !(bool_decide_eq_false_2 (cell = WIN_CELL)) by (unfold WIN_CELL; lia).
    rewrite string_app_assoc.
    destruct (decide (v > cell)) as [Hup | Hdown].
    + rewrite !(bool_decide_eq_true_2 _ Hup). reflexivity.
    + rewrite !(bool_decide_eq_false_2 _ Hdown).
      rewrite bool_decide_eq_true_2 by lia. reflexivity.
  - rewrite (resolvePortals_plain _ Hv).
    case_bool_decide; [reflexivity |].
    rewrite !bool_decide_eq_false_2 by lia.
    rewrite string_app_empty_r. reflexivity.
Qed.

(** ** The keyboard *)

(** X3. A key press rolls only with the space bar or Enter, only when
    no roll is in progress, and only when no player has won, the first
    player (index 0) included: in every other case the state is left as it
    is, and otherwise the roll starts as for a click. *)
Theorem handleKeyPress_guarded (key : string) (s : State) :
  (rolling s = true ∨ winner s ≠ None ∨ (key ≠ " " ∧ key ≠ "Enter") →
   handleKeyPress key s = s) ∧
  (rolling s = false ∧ winner s = None ∧ (key = " " ∨ key = "Enter") →
   handleKeyPress key s = beginRoll s) ∧
  handleKeyPress key first_player_won = first_player_won.
Proof.
  unfold handleKeyPress. split; [| split].
  - intros [Hr | [Hw | [Hk1 Hk2]]].
    + rewrite Hr, andb_false_r. reflexivity.
    + rewrite (bool_decide_eq_false_2 _ Hw), andb_false_r. reflexivity.
    + rewrite (bool_decide_eq_false_2 _ Hk1), (bool_decide_eq_false_2 _ Hk2).
      reflexivity.
  - intros (Hr & Hw & Hk).
    assert (Hkey : bool_decide (key = " ") || bool_decide (key = "Enter") = true).
    { destruct Hk as [-> | ->]; reflexivity. }
    rewrite Hkey, Hr, (bool_decide_eq_true_2 _ Hw). simpl.
    unfold handleRollDice, roll_blocked. rewrite Hr, Hw. reflexivity.
  - simpl. rewrite andb_false_r. reflexivity.
Qed.

(** ** The portal loop, once more *)

(** X4. On the table of the source [resolvePortals] is one table
    lookup: the entry of the cell when it has one, the cell itself when it
    has none.  It keeps a token on the track, and it leaves a cell alone
    exactly when the cell is no portal source. *)
Theorem resolvePortals_is_lookup (p : Z) :
  resolvePortals p = default p (BOARD_PORTALS !! p) ∧
  (1 ≤ p ≤ 100 → 1 ≤ resolvePortals p ≤ 100) ∧
  (resolvePortals p = p ↔ BOARD_PORTALS !! p = None).
Proof.
  destruct (BOARD_PORTALS !! p) as [v|] eqn:Hv.
  - rewrite (resolvePortals_source _ _ Hv).
    apply BOARD_PORTALS_target in Hv as (_ & Hrange & Hne & _).
    split; [reflexivity |]. split; [lia |]. split; [congruence | discriminate].
  - rewrite (resolvePortals_plain _ Hv).
    split; [reflexivity |]. split; [trivial |]. split; reflexivity.
Qed.

(** X5. The loop on any table: whatever it returns has no onward
    portal; a cell without one is returned at once; and an entry that maps
    a cell to 0 counts as no entry. *)
Theorem resolve_loop_lands (tbl : gmap Z Z) (fuel : nat) (pos : Z) :
  (∀ r, resolve_loop tbl fuel pos = Some r → portal_or tbl r = r) ∧
  (portal_or tbl pos = pos → resolve_loop tbl (S fuel) pos = Some pos) ∧
  (tbl !! pos = Some 0 → portal_or tbl pos = pos).
Proof.
  split; [| split].
  - revert pos. induction fuel as [| fuel IH]; intros pos r H; [discriminate |].
    simpl in H. case_bool_decide as Hne.
    + apply (IH _ _ H).
    + injection H as <-. congruence.
  - intros Hfix. simpl. rewrite Hfix.
    rewrite bool_decide_eq_false_2 by (intros Hc; apply Hc; reflexivity).
    reflexivity.
  - intros H0. unfold portal_or. rewrite H0. reflexivity.
Qed.

(** ** Winner, tokens and turn in play *)

Lemma settled_initialState : settled initialState.
Proof.
  split; [| split; [discriminate | reflexivity]].
  intros j. split; [| discriminate].
  destruct j as [| [| j]]; discriminate.
Qed.

Lemma settled_resolveRoll (d : Z) (s s' : State) :
  well_formed s → settled s → resolveRoll d s = Some s' → settled s'.
Proof.
  intros (Hlen & Hturn & _) (Hfin & Hwt & _) Hres.
  destruct (lookup_lt_is_Some_2 (positions s) (turn s)) as [cur Hcur]; [lia |].
  rewrite (resolveRoll_eq _ _ _ Hcur) in Hres. injection Hres as <-.
  set (newPos := resolvePortals (candidate cur d)).
  assert (Hother : ∀ j, j ≠ turn s → positions s !! j ≠ Some WIN_CELL).
  { intros j Hj H100. apply Hfin, Hwt in H100. congruence. }
  unfold settled. simpl. fold newPos.
  destruct (decide (newPos = WIN_CELL)) as [Hwin | Hnot].
  - rewrite !(bool_decide_eq_true_2 _ Hwin).
    split; [| split; [congruence | reflexivity]].
    intros j. destruct (decide (j = turn s)) as [-> | Hj].
    + rewrite list_lookup_insert_eq by lia. split; congruence.
    + rewrite list_lookup_insert_ne by congruence.
      split; [intros H; destruct (Hother j Hj H) | congruence].
  - rewrite !(bool_decide_eq_false_2 _ Hnot).
    split; [| split; [discriminate | reflexivity]].
    intros j. split; [| discriminate].
    destruct (decide (j = turn s)) as [-> | Hj].
    + rewrite list_lookup_insert_eq by lia. congruence.
    + rewrite list_lookup_insert_ne by congruence.
      intros H. destruct (Hother j Hj H).
Qed.

Lemma settled_step (s s' : State) :
  well_formed s → settled s → step s s' → settled s'.
Proof.
  intros Hwf Hs Hstep.
  destruct Hstep as [s | s | d s s' Hd Hres | s].
  - apply settled_initialState.
  - unfold handleRollDice. destruct (roll_blocked s); exact Hs.
  - apply (settled_resolveRoll d s s' Hwf Hs Hres).
  - unfold advanceTurn. destruct (winner s) as [w|] eqn:Hw; [exact Hs |].
    destruct Hs as (Hfin & Hwt & Hst). unfold settled. simpl.
    rewrite Hw in *. split; [exact Hfin |]. split; [discriminate | exact Hst].
Qed.

Lemma reachable_settled (s : State) :
  reachable s → well_formed s ∧ settled s.
Proof.
  unfold reachable. revert s. apply rtc_ind_r.
  - split; [apply well_formed_initialState | apply settled_initialState].
  - intros s1 s2 _ Hstep [Hwf Hs]. split.
    + apply (well_formed_step s1); assumption.
    + apply (settled_step s1); assumption.
Qed.

(** X6. In every reachable state [winner] is set exactly when a token
    stands on 100, and it names the owner of that token; the winner is
    the player whose turn it still is, and [status] holds that player's
    win message, or is empty while nobody has won. *)
Theorem reachable_winner_on_finish (s : State) :
  reachable s →
  (∀ j : nat, positions s !! j = Some 100 ↔ winner s = Some j) ∧
  (∀ w : nat, winner s = Some w → turn s = w ∧ status s = win_status w) ∧
  (winner s = None → status s = "").
Proof.
  intros (_ & Hfin & Hwt & Hst)%reachable_settled.
  split; [exact Hfin |]. split.
  - intros w Hw. split; [apply Hwt, Hw |]. rewrite Hst, Hw. reflexivity.
  - intros Hw. rewrite Hst, Hw. reflexivity.
Qed.

Lemma reachable_winner_on_finish_at_win :
  (∀ j : nat, positions first_player_won !! j = Some 100 ↔
              winner first_player_won = Some j) ∧
  (∀ w : nat, winner first_player_won = Some w →
              turn first_player_won = w ∧ status first_player_won = win_status w) ∧
  (winner first_player_won = None → status first_player_won = "").
Proof.
  apply (reachable_winner_on_finish first_player_won).
  apply first_player_won_reachable.
Defined.

Lemma resolvePortals_finish : resolvePortals 100 = 100.
Proof. apply resolvePortals_plain. reflexivity. Qed.

(** X7. Once a player has won, only [newGame] changes the game: every
    other step from a reachable state with a winner leaves positions,
    turn, winner and status as they are (a roll may still run, and then
    touches [rolling] and [dice] only). *)
Theorem won_game_stays_won (s s' : State) (w : nat) :
  reachable s →
  winner s = Some w →
  step s s' →
  s' = initialState ∨
  (positions s' = positions s ∧ turn s' = turn s ∧
   winner s' = winner s ∧ status s' = status s).
Proof.
  intros ((Hlen & Hturn & _) & Hfin & Hwt & Hst)%reachable_settled Hw Hstep.
  destruct Hstep as [s | s | d s s' Hd Hres | s].
  - left. reflexivity.
  - right. unfold handleRollDice.
    destruct (roll_blocked s); repeat split; reflexivity.
  - right.
    assert (Hcur : positions s !! turn s = Some 100).
    { apply Hfin. rewrite Hw. f_equal. symmetry. apply Hwt, Hw. }
    rewrite (resolveRoll_eq _ _ _ Hcur) in Hres. injection Hres as <-.
    assert (Hc : candidate 100 d = 100).
    { unfold candidate, WIN_CELL. rewrite bool_decide_eq_false_2 by lia. reflexivity. }
    simpl. rewrite Hc, resolvePortals_finish.
    rewrite bool_decide_eq_true_2 by reflexivity.
    split; [apply list_insert_id, Hcur |]. split; [reflexivity |].
    rewrite Hst, Hw, (Hwt w Hw). split; reflexivity.
  - right.
    assert (Hsame : advanceTurn s = s) by (unfold advanceTurn; rewrite Hw; reflexivity).
    rewrite Hsame. repeat split; reflexivity.
Qed.

Lemma won_game_stays_won_on_click :
  handleRollDice first_player_won = initialState ∨
  (positions (handleRollDice first_player_won) = positions first_player_won ∧
   turn (handleRollDice first_player_won) = turn first_player_won ∧
   winner (handleRollDice first_player_won) = winner first_player_won ∧
   status (handleRollDice first_player_won) = status first_player_won).
Proof.
  apply (won_game_stays_won first_player_won (handleRollDice first_player_won) 0).
  - apply first_player_won_reachable.
  - reflexivity.
  - apply step_handleRollDice.
Defined.

(** X8. The finish needs the exact roll: in a reachable state without
    a winner, with the current player on [p], a roll of [d] in 1..6
    resolves, and it makes the current player the winner exactly when
    [p + d = 100]; any other roll leaves the game without a winner. *)
Theorem win_needs_exact_roll (d p : Z) (s : State) :
  reachable s →
  winner s = None →
  positions s !! turn s = Some p →
  1 ≤ d ≤ 6 →
  ∃ s', resolveRoll d s = Some s' ∧
        (winner s' = Some (turn s) ↔ p + d = 100) ∧
        (winner s' = None ↔ p + d ≠ 100).
Proof.
  intros (Hwf & Hfin & _)%reachable_settled Hw Hcur Hd.
  destruct Hwf as (_ & _ & Hpos).
  destruct (Forall_lookup_1 _ _ _ _ Hpos Hcur) as [Hp _].
  assert (Hp100 : p ≠ 100).
  { intros ->. apply Hfin in Hcur. congruence. }
  rewrite (resolveRoll_eq _ _ _ Hcur). eexists. split; [reflexivity |]. simpl.
  assert (Hiff : resolvePortals (candidate p d) = WIN_CELL ↔ p + d = 100).
  { unfold candidate, WIN_CELL. split.
    - intros H%resolvePortals_100. case_bool_decide; lia.
    - intros H. rewrite bool_decide_eq_true_2 by lia.
      rewrite H. apply resolvePortals_finish. }
  case_bool_decide as Hwin.
  - apply Hiff in Hwin. split; split; congruence.
  - rewrite Hiff in Hwin. split; split; congruence.
Qed.

Lemma win_needs_exact_roll_first_roll :
  ∃ s', resolveRoll 5 initialState = Some s' ∧
        (winner s' = Some (turn initialState) ↔ 1 + 5 = 100) ∧
        (winner s' = None ↔ 1 + 5 ≠ 100).
Proof.
  apply (win_needs_exact_roll 5 1 initialState).
  - apply rtc_refl.
  - reflexivity.
  - reflexivity.
  - lia.
Defined.

(** X9. The two timer callbacks work from every reachable state,
    whatever was dispatched before them (rolls may overlap).  The roll
    timer's updater always returns a state: it is no longer rolling, shows
    the value rolled and has the same player to move.  The turn timer's
    updater hands the turn to the other player when no winner is set, and
    changes nothing when one is. *)
Theorem timer_updaters_in_play (d : Z) (s : State) :
  reachable s →
  1 ≤ d ≤ 6 →
  (∃ s', resolveRoll d s = Some s' ∧
         rolling s' = false ∧
         dice s' = Some d ∧
         turn s' = turn s) ∧
  (winner s = None →
   turn (advanceTurn s) = (1 - turn s)%nat ∧
   positions (advanceTurn s) = positions s ∧
   winner (advanceTurn s) = None) ∧
  (winner s ≠ None → advanceTurn s = s).
Proof.
  intros (Hlen & Hturn & _)%reachable_well_formed Hd.
  destruct (lookup_lt_is_Some_2 (positions s) (turn s)) as [cur Hcur]; [lia |].
  split; [| split].
  - rewrite (resolveRoll_eq d s cur Hcur). eexists.
    split; [reflexivity |]. repeat split; reflexivity.
  - intros Hw. unfold advanceTurn. rewrite Hw. simpl.
    split; [case_bool_decide; lia |]. split; reflexivity.
  - intros Hw. unfold advanceTurn. destruct (winner s); [reflexivity | congruence].
Qed.

Lemma timer_updaters_in_play_first_roll :
  (∃ s', resolveRoll 5 initialState = Some s' ∧
         rolling s' = false ∧
         dice s' = Some 5 ∧
         turn s' = turn initialState) ∧
  (winner initialState = None →
   turn (advanceTurn initialState) = (1 - turn initialState)%nat ∧
   positions (advanceTurn initialState) = positions initialState ∧
   winner (advanceTurn initialState) = None) ∧
  (winner initialState ≠ None → advanceTurn initialState = initialState).
Proof.
  apply (timer_updaters_in_play 5 initialState).
  - apply rtc_refl.
  - lia.
Defined.

End SnakeLadderProofs.

(** * Properties of the Tic-Tac-Toe engine *)

Module TicTacToeProofs.
Import TicTacToe.

(** ** The scan over the lines *)

Lemma line_holds_functional (b : Board) (l : Line) (m m' : Mark) :
  line_holds b l m → line_holds b l m' → m = m'.
Proof.
  destruct l as [[a b2] c]. intros (Ha & _) (Ha' & _). congruence.
Qed.

(** What the loop does on its first line: it returns it when the line
    holds three equal marks, and moves on otherwise. *)
Lemma scan_lines_cons (b : Board) (l : Line) (rest : list Line) :
  (∃ m, line_holds b l m ∧
        scan_lines b (l :: rest) = Some {| winner := Won m; line := Some l |}) ∨
  (¬ line_uniform b l ∧ scan_lines b (l :: rest) = scan_lines b rest).
Proof.
  destruct l as [[a b2] c]. simpl.
  destruct (b !! a) as [[m|]|] eqn:Ha.
  - destruct (decide (Some (Some m) = b !! b2)) as [Hb|Hb];
      [destruct (decide (Some (Some m) = b !! c)) as [Hc|Hc] |].
    + left. exists m. rewrite !bool_decide_eq_true_2 by assumption.
      repeat split; congruence.
    + right. rewrite (bool_decide_eq_false_2 _ Hc), andb_false_r.
      split; [| reflexivity]. intros (m' & Ha' & _ & Hc'). congruence.
    + right. rewrite (bool_decide_eq_false_2 _ Hb). simpl.
      split; [| reflexivity]. intros (m' & Ha' & Hb' & _). congruence.
  - right. split; [| reflexivity]. intros (m' & Ha' & _). congruence.
  - right. split; [| reflexivity]. intros (m' & Ha' & _). congruence.
Qed.

Lemma scan_lines_first_match (b : Board) (ls : list Line) (l : Line) (m : Mark) :
  first_match b ls l m →
  scan_lines b ls = Some {| winner := Won m; line := Some l |}.
Proof.
  intros (before & after & -> & Hholds & Hbefore).
  induction Hbefore as [| l0 before Hl0 _ IH]; simpl app.
  - destruct (scan_lines_cons b l after) as [(m' & Hm' & Hscan) | (Hno & _)].
    + rewrite Hscan, (line_holds_functional _ _ _ _ Hholds Hm'). reflexivity.
    + destruct Hno. exists m. exact Hholds.
  - destruct (scan_lines_cons b l0 (before ++ l :: after))
      as [(m' & Hm' & _) | (_ & Hscan)].
    + destruct Hl0. exists m'. exact Hm'.
    + rewrite Hscan. exact IH.
Qed.

Lemma scan_lines_Some (b : Board) (ls : list Line) (r : Result) :
  scan_lines b ls = Some r →
  ∃ l m, r = {| winner := Won m; line := Some l |} ∧ first_match b ls l m.
Proof.
  induction ls as [| l0 rest IH]; [discriminate |].
  destruct (scan_lines_cons b l0 rest) as [(m & Hm & Hscan) | (Hno & Hscan)];
    rewrite Hscan.
  - intros [= <-]. exists l0, m. split; [reflexivity |].
    exists [], rest. repeat split; [exact Hm | constructor].
  - intros (l & m & -> & before & after & -> & Hm & Hbefore)%IH.
    exists l, m. split; [reflexivity |].
    exists (l0 :: before), after. repeat split; [exact Hm |].
    constructor; assumption.
Qed.

Lemma scan_lines_None (b : Board) (ls : list Line) :
  scan_lines b ls = None ↔ ∀ l, l ∈ ls → ¬ line_uniform b l.
Proof.
  induction ls as [| l0 rest IH].
  - split; [| reflexivity]. intros _ l Hl. apply elem_of_nil in Hl. destruct Hl.
  - destruct (scan_lines_cons b l0 rest) as [(m & Hm & Hscan) | (Hno & Hscan)];
      rewrite Hscan.
    + split; [discriminate |]. intros H. destruct (H l0); [left |].
      exists m. exact Hm.
    + rewrite IH. split.
      * intros H l [-> | Hl]%elem_of_cons; [exact Hno | apply H, Hl].
      * intros H l Hl. apply H. right. exact Hl.
Qed.

Lemma first_match_uniform (b : Board) (ls : list Line) (l : Line) (m : Mark) :
  first_match b ls l m → l ∈ ls ∧ line_uniform b l.
Proof.
  intros (before & after & -> & Hm & _). split.
  - apply elem_of_app. right. left.
  - exists m. exact Hm.
Qed.

(** [b.every(Boolean)] on a board. *)
Lemma every_filled (b : Board) :
  forallb (λ v, truthy (Some v)) b = true ↔
  ∀ i, i < length b → ∃ m, b !! i = Some (Some m).
Proof.
  rewrite forallb_forall. split.
  - intros H i Hi. destruct (lookup_lt_is_Some_2 _ _ Hi) as [v Hv].
    specialize (H v). rewrite <- list_elem_of_In in H.
    specialize (H (list_elem_of_lookup_2 _ _ _ Hv)).
    destruct v as [m|]; [| discriminate]. exists m. exact Hv.
  - intros H v Hv. apply list_elem_of_In, list_elem_of_lookup_1 in Hv as [i Hi].
    destruct (H i (lookup_lt_Some _ _ _ Hi)) as [m Hm].
    assert (v = Some m) as -> by congruence. reflexivity.
Qed.

(** ** [calculateWinner] *)

Lemma calculateWinner_win (b : Board) (m : Mark) (l : Line) :
  calculateWinner b = Some {| winner := Won m; line := Some l |} ↔
  first_match b lines l m.
Proof.
  unfold calculateWinner. split.
  - destruct (scan_lines b lines) as [r|] eqn:Hscan.
    + intros [= ->]. apply scan_lines_Some in Hscan as (l' & m' & [= -> ->] & H).
      exact H.
    + destruct (forallb _ b); discriminate.
  - intros H. rewrite (scan_lines_first_match _ _ _ _ H). reflexivity.
Qed.

Lemma calculateWinner_no_line (b : Board) :
  (∀ l, l ∈ lines → ¬ line_uniform b l) →
  calculateWinner b =
    if forallb (λ v, truthy (Some v)) b
    then Some {| winner := Draw; line := None |}
    else None.
Proof.
  intros H. unfold calculateWinner.
  apply scan_lines_None in H. rewrite H. reflexivity.
Qed.

Lemma calculateWinner_some_line (b : Board) (l : Line) :
  l ∈ lines → line_uniform b l →
  ∃ m l', calculateWinner b = Some {| winner := Won m; line := Some l' |}.
Proof.
  intros Hl Hu. unfold calculateWinner.
  destruct (scan_lines b lines) as [r|] eqn:Hscan.
  - apply scan_lines_Some in Hscan as (l' & m & -> & _). exists m, l'. reflexivity.
  - destruct (proj1 (scan_lines_None b lines) Hscan l Hl Hu).
Qed.

(** The shapes a result can take. *)
Lemma calculateWinner_shape (b : Board) (r : Result) :
  calculateWinner b = Some r →
  (∃ m l, r = {| winner := Won m; line := Some l |}) ∨
  r = {| winner := Draw; line := None |}.
Proof.
  unfold calculateWinner.
  destruct (scan_lines b lines) as [r'|] eqn:Hscan.
  - intros [= ->]. apply scan_lines_Some in Hscan as (l & m & -> & _).
    left. exists m, l. reflexivity.
  - destruct (forallb _ b); [intros [= <-]; right; reflexivity | discriminate].
Qed.

(** C2. On every board of 9 cells [calculateWinner] returns a win,
    with mark [m] and line [l], exactly when [l] is the first of the 8
    lines, in the order rows, columns, diagonals, that holds three [m];
    it returns a win at all exactly when some line holds three equal
    marks; it returns the draw exactly when no line does and all 9 cells
    are filled; and it returns [null] exactly when no line does and some
    cell is empty.  It returns nothing else. *)
Theorem calculateWinner_outcome (b : Board) :
  length b = 9 →
  lines = [ (0, 1, 2); (3, 4, 5); (6, 7, 8);
            (0, 3, 6); (1, 4, 7); (2, 5, 8);
            (0, 4, 8); (2, 4, 6) ] ∧
  (∀ m l, calculateWinner b = Some {| winner := Won m; line := Some l |} ↔
          first_match b lines l m) ∧
  ((∃ m l, calculateWinner b = Some {| winner := Won m; line := Some l |}) ↔
   (∃ l, l ∈ lines ∧ line_uniform b l)) ∧
  (calculateWinner b = Some {| winner := Draw; line := None |} ↔
   (∀ l, l ∈ lines → ¬ line_uniform b l) ∧ all_filled b) ∧
  (calculateWinner b = None ↔
   (∀ l, l ∈ lines → ¬ line_uniform b l) ∧ ¬ all_filled b) ∧
  (∀ r, calculateWinner b = Some r →
        (∃ m l, r = {| winner := Won m; line := Some l |}) ∨
        r = {| winner := Draw; line := None |}).
Proof.
  intros Hlen.
  assert (Hfilled : forallb (λ v, truthy (Some v)) b = true ↔ all_filled b).
  { rewrite every_filled, Hlen. reflexivity. }
  assert (Hnone : ∀ r, calculateWinner b = r →
            (∀ m l, r ≠ Some {| winner := Won m; line := Some l |}) →
            ∀ l, l ∈ lines → ¬ line_uniform b l).
  { intros r Hr Hnot l Hl Hu.
    destruct (calculateWinner_some_line b l Hl Hu) as (m & l' & Hwin).
    apply (Hnot m l'). congruence. }
  split; [reflexivity |]. split; [apply calculateWinner_win |].
  split; [| split; [| split]].
  - split.
    + intros (m & l & H%calculateWinner_win%first_match_uniform).
      exists l. exact H.
    + intros (l & Hl & Hu). apply (calculateWinner_some_line b l Hl Hu).
  - split.
    + intros H. assert (Hno := Hnone _ H ltac:(discriminate)).
      split; [exact Hno |]. apply Hfilled.
      rewrite (calculateWinner_no_line b Hno) in H.
      destruct (forallb _ b); [reflexivity | discriminate].
    + intros [Hno Hall]. rewrite (calculateWinner_no_line b Hno).
      apply Hfilled in Hall. rewrite Hall. reflexivity.
  - split.
    + intros H. assert (Hno := Hnone _ H ltac:(discriminate)).
      split; [exact Hno |]. intros Hall%Hfilled.
      rewrite (calculateWinner_no_line b Hno), Hall in H. discriminate.
    + intros [Hno Hall]. rewrite (calculateWinner_no_line b Hno).
      destruct (forallb _ b) eqn:Hf; [| reflexivity].
      destruct Hall. apply Hfilled. reflexivity.
  - apply calculateWinner_shape.
Qed.

Lemma calculateWinner_outcome_two_rows :
  length two_rows = 9 ∧ first_match two_rows lines (0, 1, 2) X.
Proof.
  split; [reflexivity |].
  apply (proj1 (proj2 (calculateWinner_outcome two_rows eq_refl))).
  vm_compute. reflexivity.
Defined.

(** ** [handleClick] *)

Lemma nonempty_spec (str : string) : nonempty str = true ↔ str ≠ "".
Proof. destruct str; simpl; split; congruence. Qed.

Lemma truthy_spec (v : option (option Mark)) :
  truthy v = true ↔ ∃ m, v = Some (Some m).
Proof.
  destruct v as [[m|]|]; simpl; split; try discriminate; eauto.
  all: intros [m' H]; discriminate.
Qed.

Lemma click_blocked_spec (idx : nat) (s : State) :
  click_blocked idx s = true ↔
  (∃ m, board s !! idx = Some (Some m)) ∨ status s ≠ "".
Proof.
  unfold click_blocked. rewrite orb_true_iff, truthy_spec, nonempty_spec.
  reflexivity.
Qed.

Lemma mark_wins_nonempty (m : Mark) : mark_string m +:+ " wins!" ≠ "".
Proof. destruct m; discriminate. Qed.

(** An accepted click, spelled out. *)
Lemma handleClick_accepted (idx : nat) (s s' : State) :
  handleClick idx s = Some s' → s' ≠ s →
  click_blocked idx s = false ∧
  idx < length (board s) ∧
  board s' = <[idx := Some (if xIsNext s then X else O)]> (board s) ∧
  match calculateWinner (board s') with
  | Some r => xIsNext s' = xIsNext s ∧ status s' ≠ ""
  | None => xIsNext s' = negb (xIsNext s) ∧ status s' = ""
  end.
Proof.
  unfold handleClick. intros H Hne.
  destruct (click_blocked idx s) eqn:Hb; [congruence |].
  split; [reflexivity |].
  case_bool_decide as Hidx; [| discriminate]. split; [exact Hidx |].
  assert (Hst : status s = "").
  { apply not_true_iff_false in Hb. rewrite click_blocked_spec in Hb.
    destruct (decide (status s = "")) as [| Hs]; [assumption |].
    destruct Hb. right. exact Hs. }
  destruct (calculateWinner _) as [[[m|] ln]|] eqn:Hcw;
    injection H as <-; simpl; rewrite Hcw; (split; [reflexivity |]).
  - split; [reflexivity | apply mark_wins_nonempty].
  - split; [reflexivity | discriminate].
  - split; [reflexivity | exact Hst].
Qed.

Lemma handleClick_total (idx : nat) (s : State) :
  click_blocked idx s = false → idx < length (board s) →
  ∃ s', handleClick idx s = Some s' ∧ s' ≠ s.
Proof.
  intros Hb Hidx.
  assert (Hcell : ¬ ∃ m, board s !! idx = Some (Some m)).
  { intros H. apply not_true_iff_false in Hb. apply Hb, click_blocked_spec.
    left. exact H. }
  assert (Hnew : ∀ s', board s' = <[idx := Some (if xIsNext s then X else O)]> (board s) →
                        s' ≠ s).
  { intros s' Hs' ->. apply Hcell. exists (if xIsNext s then X else O).
    rewrite Hs'. apply list_lookup_insert_eq. exact Hidx. }
  unfold handleClick. rewrite Hb, bool_decide_eq_true_2 by exact Hidx.
  destruct (calculateWinner _) as [[[m|] ln]|];
    eexists; (split; [reflexivity | apply Hnew; reflexivity]).
Qed.

Lemma handleClick_blocked (idx : nat) (s : State) :
  click_blocked idx s = true → handleClick idx s = Some s.
Proof. intros Hb. unfold handleClick. rewrite Hb. reflexivity. Qed.

Lemma handleClick_cases (idx : nat) (s s' : State) :
  handleClick idx s = Some s' → s' = s ∨ s' ≠ s.
Proof.
  intros H. destruct (click_blocked idx s) eqn:Hb.
  - left. unfold handleClick in H. rewrite Hb in H. congruence.
  - right. assert (Hidx : idx < length (board s)).
    { unfold handleClick in H. rewrite Hb in H.
      case_bool_decide; [assumption | discriminate]. }
    destruct (handleClick_total idx s Hb Hidx) as (s'' & H'' & Hne).
    congruence.
Qed.



(** The turn after a state-changing click, read off the result alone: if
    [calculateWinner] finds the
    new board still in progress, [xIsNext] flips (and [status] stays
    empty); if it finds a win or a draw, [xIsNext] does not flip (and
    [status] is set). *)
Theorem handleClick_turn_alternation (idx : nat) (s s' : State) :
  handleClick idx s = Some s' →
  s' ≠ s →
  (calculateWinner (board s') = None →
     xIsNext s' = negb (xIsNext s) ∧ status s' = "") ∧
  (calculateWinner (board s') ≠ None →
     xIsNext s' = xIsNext s ∧ status s' ≠ "").
Proof.
  intros H Hne.
  destruct (handleClick_accepted idx s s' H Hne) as (_ & _ & _ & Hcase).
  destruct (calculateWinner (board s')) as [r|]; split; intros Hcw;
    congruence.
Qed.

Lemma handleClick_turn_alternation_examples :
  (xIsNext x_has_won = xIsNext x_to_win ∧ status x_has_won ≠ "") ∧
  (∀ s', handleClick 8 x_to_win = Some s' →
         xIsNext s' = negb (xIsNext x_to_win) ∧ status s' = "").
Proof.
  split.
  - apply (handleClick_turn_alternation 2 x_to_win x_has_won).
    + vm_compute. reflexivity.
    + discriminate.
    + vm_compute. discriminate.
  - intros s' H.
    apply (handleClick_turn_alternation 8 x_to_win s' H).
    + vm_compute in H. injection H as <-. discriminate.
    + vm_compute in H. injection H as <-. vm_compute. reflexivity.
Defined.


(** ** Reachable states *)

Lemma consistent_fresh (mode : option string) (xs : bool) (l : option Line) :
  consistent {| gameMode := mode; board := emptyBoard; xIsNext := xs;
                status := ""; animWinLine := l |}.
Proof. split; [reflexivity |]. simpl. split; reflexivity. Qed.

Lemma consistent_step (s s' : State) :
  consistent s → step s s' → consistent s'.
Proof.
  intros [Hlen Hst] Hstep.
  destruct Hstep as [mode s | s | s | idx s s' Hclick].
  - apply consistent_fresh.
  - split; assumption.
  - apply consistent_fresh.
  - destruct (handleClick_cases idx s s' Hclick) as [-> | Hne];
      [split; assumption |].
    destruct (handleClick_accepted idx s s' Hclick Hne) as (_ & _ & Hb & Hcase).
    split; [rewrite Hb, length_insert; exact Hlen |].
    destruct (calculateWinner (board s')) as [r|].
    + destruct Hcase as [_ Hs]. split; [contradiction | discriminate].
    + destruct Hcase as [_ Hs]. split; [reflexivity | exact (λ _, Hs)].
Qed.

Lemma reachable_consistent (s : State) :
  reachable s → consistent s.
Proof.
  unfold reachable. revert s. apply rtc_ind_r.
  - apply consistent_fresh.
  - intros s1 s2 _ Hstep IH. apply (consistent_step s1); assumption.
Qed.

(** In play the status message and the board agree, so a click is ignored
    as soon as the board itself is won or drawn. *)
Lemma handleClick_ignored_when_over (idx : nat) (s : State) :
  reachable s → calculateWinner (board s) ≠ None → handleClick idx s = Some s.
Proof.
  intros [_ Hst]%reachable_consistent Hover.
  apply handleClick_blocked, click_blocked_spec. right.
  intros Hs. apply Hover, Hst, Hs.
Qed.

Lemma clicks_steps (idxs : list nat) (s s' : State) :
  clicks idxs s = Some s' → rtc step s s'.
Proof.
  revert s. induction idxs as [| idx rest IH]; intros s H; simpl in H.
  - injection H as <-. apply rtc_refl.
  - destruct (handleClick idx s) as [s1|] eqn:H1; [| discriminate].
    eapply rtc_l; [apply (step_handleClick idx s s1 H1) | apply IH, H].
Qed.

(** The moves X→0, O→3, X→1, O→4, X→2 of a local game end in a win for X
    on the top row. *)
Lemma top_row_game :
  clicks [0; 3; 1; 4; 2] (startNewGame (Some "local") initialState) = Some x_has_won ∧
  calculateWinner (board x_has_won) = Some {| winner := Won X; line := Some (0, 1, 2) |} ∧
  reachable x_has_won.
Proof.
  assert (H : clicks [0; 3; 1; 4; 2] (startNewGame (Some "local") initialState)
              = Some x_has_won) by (vm_compute; reflexivity).
  split; [exact H |]. split; [vm_compute; reflexivity |].
  eapply rtc_l; [apply (step_startNewGame (Some "local")) |].
  apply (clicks_steps _ _ _ H).
Qed.

(** ** What a click writes *)

Lemma click_open (idx : nat) (s : State) :
  click_blocked idx s = false →
  status s = "" ∧ ∀ m, board s !! idx ≠ Some (Some m).
Proof.
  intros Hb. apply not_true_iff_false in Hb. rewrite click_blocked_spec in Hb.
  split.
  - destruct (status s) eqn:Hs; [reflexivity |]. destruct Hb. right. discriminate.
  - intros m Hm. apply Hb. left. exists m. exact Hm.
Qed.

Lemma handleClick_writes (idx : nat) (s s' : State) :
  handleClick idx s = Some s' →
  gameMode s' = gameMode s ∧
  (s' = s ∨
   (click_blocked idx s = false ∧ idx < length (board s) ∧
    board s' = <[idx := Some (mover s)]> (board s))).
Proof.
  unfold handleClick, mover. intros H.
  destruct (click_blocked idx s) eqn:Hb.
  - injection H as <-. split; [reflexivity | left; reflexivity].
  - case_bool_decide as Hidx; [| discriminate].
    destruct (calculateWinner _) as [[[m|] ln]|]; injection H as <-;
      (split; [reflexivity | right; repeat split; assumption]).
Qed.

(** ** Message, line and board in play *)

Lemma in_sync_fresh (mode : option string) :
  in_sync {| gameMode := mode; board := emptyBoard; xIsNext := true;
             status := ""; animWinLine := None |}.
Proof. split; [reflexivity |]. simpl. split; reflexivity. Qed.

Lemma in_sync_open (s : State) :
  in_sync s → status s = "" →
  calculateWinner (board s) = None ∧ animWinLine s = None.
Proof.
  intros [_ Hs] Hst. destruct (calculateWinner (board s)) as [[[m|] ln]|];
    simpl in Hs; destruct Hs as [Hs Ha].
  - rewrite Hst in Hs. destruct m; discriminate.
  - rewrite Hst in Hs. discriminate.
  - split; [reflexivity | exact Ha].
Qed.

Lemma in_sync_step (s s' : State) :
  in_sync s → step s s' → in_sync s'.
Proof.
  intros Hs Hstep.
  destruct Hstep as [mode s | s | s | idx s s' Hclick].
  - apply in_sync_fresh.
  - exact Hs.
  - apply in_sync_fresh.
  - unfold handleClick in Hclick.
    destruct (click_blocked idx s) eqn:Hb; [injection Hclick as <-; exact Hs |].
    case_bool_decide as Hidx; [| discriminate].
    destruct (click_open idx s Hb) as [Hst _].
    destruct (in_sync_open s Hs Hst) as [_ Hanim].
    destruct Hs as [Hlen _].
    destruct (calculateWinner _) as [[[m|] ln]|] eqn:Hcw; injection Hclick as <-;
      (split; [simpl; rewrite length_insert; exact Hlen |]); simpl; rewrite Hcw; simpl.
    + split; reflexivity.
    + split; [reflexivity | exact Hanim].
    + split; assumption.
Qed.

Lemma reachable_in_sync (s : State) :
  reachable s → in_sync s.
Proof.
  unfold reachable. revert s. apply rtc_ind_r.
  - apply in_sync_fresh.
  - intros s1 s2 _ Hstep IH. apply (in_sync_step s1); assumption.
Qed.

(** ** Counting marks *)

Lemma count_cells_cons (v a : option Mark) (b : Board) :
  count_cells v (a :: b) =
    (if bool_decide (a = v) then 1 else 0) + count_cells v b.
Proof.
  unfold count_cells. rewrite filter_cons.
  destruct (decide (a = v)) as [Ha | Ha].
  - rewrite (bool_decide_eq_true_2 _ Ha). reflexivity.
  - rewrite (bool_decide_eq_false_2 _ Ha). reflexivity.
Qed.

(** Overwriting one cell moves one unit of count from the old content to
    the new one. *)
Lemma count_cells_insert (v old new : option Mark) (b : Board) (idx : nat) :
  b !! idx = Some old →
  count_cells v (<[idx := new]> b) + (if bool_decide (old = v) then 1 else 0) =
  count_cells v b + (if bool_decide (new = v) then 1 else 0).
Proof.
  revert idx. induction b as [| a b IH]; intros idx Hold; [discriminate |].
  destruct idx as [| idx]; simpl in Hold.
  - injection Hold as ->. simpl. rewrite !count_cells_cons. lia.
  - simpl. rewrite !count_cells_cons. specialize (IH idx Hold). lia.
Qed.

Lemma click_cell_empty (idx : nat) (s : State) :
  click_blocked idx s = false → idx < length (board s) →
  board s !! idx = Some None.
Proof.
  intros Hb Hidx. destruct (click_open idx s Hb) as [_ Hfree].
  destruct (lookup_lt_is_Some_2 _ _ Hidx) as [[m|] Hv]; [| exact Hv].
  destruct (Hfree m Hv).
Qed.

Lemma balanced_fresh (mode : option string) :
  balanced {| gameMode := mode; board := emptyBoard; xIsNext := true;
              status := ""; animWinLine := None |}.
Proof. reflexivity. Qed.

Lemma balanced_step (s s' : State) :
  balanced s → step s s' → balanced s'.
Proof.
  intros Hs Hstep.
  destruct Hstep as [mode s | s | s | idx s s' Hclick].
  - apply balanced_fresh.
  - exact Hs.
  - apply balanced_fresh.
  - unfold handleClick in Hclick.
    destruct (click_blocked idx s) eqn:Hb; [injection Hclick as <-; exact Hs |].
    case_bool_decide as Hidx; [| discriminate].
    destruct (click_open idx s Hb) as [Hst _].
    pose proof (click_cell_empty idx s Hb Hidx) as Hcell.
    pose proof (count_cells_insert (Some X) None
                  (Some (if xIsNext s then X else O)) _ _ Hcell) as HX.
    pose proof (count_cells_insert (Some O) None
                  (Some (if xIsNext s then X else O)) _ _ Hcell) as HO.
    unfold balanced in *. rewrite Hst in Hs. simpl in Hs.
    destruct (calculateWinner _) as [[[m|] ln]|]; injection Hclick as <-; simpl;
      try rewrite Hst; try (destruct m); destruct (xIsNext s); simpl in *; lia.
Qed.

Lemma reachable_balanced (s : State) :
  reachable s → balanced s.
Proof.
  unfold reachable. revert s. apply rtc_ind_r.
  - apply balanced_fresh.
  - intros s1 s2 _ Hstep IH. apply (balanced_step s1); assumption.
Qed.

(** X13. The players move in turn, X first: in every reachable state X
    has as many marks on the board as O, or one more; and while the game
    is in progress it is X's turn exactly when they have equally many. *)
Theorem marks_alternate (s : State) :
  reachable s →
  (count_cells (Some X) (board s) = count_cells (Some O) (board s) ∨
   count_cells (Some X) (board s) = count_cells (Some O) (board s) + 1) ∧
  (status s = "" →
   (xIsNext s = true ↔
    count_cells (Some X) (board s) = count_cells (Some O) (board s))).
Proof.
  intros Hb%reachable_balanced. unfold balanced in Hb. split.
  - destruct (xorb _ _); lia.
  - intros Hst. rewrite Hst in Hb. simpl in Hb.
    destruct (xIsNext s); simpl in Hb; split; intros H; try lia; congruence.
Qed.

Lemma marks_alternate_after_win :
  (count_cells (Some X) (board x_has_won) = count_cells (Some O) (board x_has_won) ∨
   count_cells (Some X) (board x_has_won) = count_cells (Some O) (board x_has_won) + 1) ∧
  (status x_has_won = "" →
   (xIsNext x_has_won = true ↔
    count_cells (Some X) (board x_has_won) = count_cells (Some O) (board x_has_won))).
Proof.
  apply (marks_alternate x_has_won).
  apply top_row_game.
Defined.

(** ** Who wins *)

Lemma x_to_win_reachable : reachable x_to_win.
Proof.
  eapply rtc_l; [apply (step_startNewGame (Some "local")) |].
  apply (clicks_steps [0; 3; 1; 4]). vm_compute. reflexivity.
Qed.

Lemma no_result_no_line (b : Board) (l : Line) :
  calculateWinner b = None → l ∈ lines → ¬ line_uniform b l.
Proof.
  unfold calculateWinner. intros H Hl.
  destruct (scan_lines b lines) as [r|] eqn:Hscan; [discriminate |].
  apply (proj1 (scan_lines_None b lines) Hscan l Hl).
Qed.

(** X14. A win belongs to the player who just moved: when an accepted
    click in a reachable state makes [calculateWinner] report a win, the
    winning mark is the one just written, the clicked cell lies on the
    winning line, and the message and the highlighted line say so. *)
Theorem win_is_the_movers (idx : nat) (s s' : State) (m : Mark) (l : Line) :
  reachable s →
  handleClick idx s = Some s' →
  s' ≠ s →
  calculateWinner (board s') = Some {| winner := Won m; line := Some l |} →
  m = mover s ∧
  on_line idx l ∧
  status s' = mark_string (mover s) +:+ " wins!" ∧
  animWinLine s' = Some l.
Proof.
  intros Hreach Hclick Hne Hcw.
  pose proof (reachable_in_sync s Hreach) as Hsync.
  assert (Hsync' : in_sync s').
  { apply (in_sync_step s); [exact Hsync | apply (step_handleClick idx), Hclick]. }
  destruct (handleClick_writes idx s s' Hclick) as [_ [-> | (Hb & Hidx & Hboard)]];
    [destruct Hne; reflexivity |].
  destruct (click_open idx s Hb) as [Hst _].
  destruct (in_sync_open s Hsync Hst) as [Hold _].
  destruct (proj1 (calculateWinner_win _ _ _) Hcw) as (before & after & Hl & Hholds & _).
  assert (Hin : l ∈ lines).
  { rewrite Hl. apply elem_of_app. right. left. }
  assert (Hwritten : board s' !! idx = Some (Some (mover s))).
  { rewrite Hboard. apply list_lookup_insert_eq. exact Hidx. }
  assert (Hon : on_line idx l).
  { destruct l as [[a b2] c]. simpl.
    destruct (decide (idx = a)) as [| Ha]; [tauto |].
    destruct (decide (idx = b2)) as [| Hb2]; [tauto |].
    destruct (decide (idx = c)) as [| Hc]; [tauto |].
    destruct (no_result_no_line _ _ Hold Hin). exists m.
    destruct Hholds as (H1 & H2 & H3).
    rewrite Hboard in H1, H2, H3.
    rewrite list_lookup_insert_ne in H1, H2, H3 by congruence.
    repeat split; assumption. }
  assert (Hm : m = mover s).
  { destruct l as [[a b2] c]. destruct Hholds as (H1 & H2 & H3).
    destruct Hon as [-> | [-> | ->]]; congruence. }
  destruct Hsync' as [_ Hs']. rewrite Hcw in Hs'. simpl in Hs'.
  destruct Hs' as [Hs' Ha']. rewrite <- Hm. repeat split; assumption.
Qed.

Lemma win_is_the_movers_top_row :
  X = mover x_to_win ∧
  on_line 2 (0, 1, 2) ∧
  status x_has_won = mark_string (mover x_to_win) +:+ " wins!" ∧
  animWinLine x_has_won = Some (0, 1, 2).
Proof.
  apply (win_is_the_movers 2 x_to_win x_has_won X (0, 1, 2)).
  - apply x_to_win_reachable.
  - vm_compute. reflexivity.
  - discriminate.
  - vm_compute. reflexivity.
Defined.

(** ** The game goes on *)

Lemma some_cell_empty (b : Board) :
  forallb (λ v, truthy (Some v)) b = false → ∃ i, b !! i = Some None.
Proof.
  induction b as [| [m|] b IH]; simpl; [discriminate | |].
  - intros [i Hi]%IH. exists (S i). exact Hi.
  - intros _. exists 0. reflexivity.
Qed.

(** X15. While the game is in progress a move is possible: in every
    reachable state with an empty status some cell among the nine is
    empty, and a click on it is accepted and changes the state. *)
Theorem open_game_has_a_move (s : State) :
  reachable s →
  status s = "" →
  ∃ idx s', idx < 9 ∧
            board s !! idx = Some None ∧
            handleClick idx s = Some s' ∧
            s' ≠ s.
Proof.
  intros Hsync%reachable_in_sync Hst.
  destruct (in_sync_open s Hsync Hst) as [Hcw _]. destruct Hsync as [Hlen _].
  unfold calculateWinner in Hcw.
  destruct (scan_lines (board s) lines); [discriminate |].
  destruct (forallb _ (board s)) eqn:Hall; [discriminate |].
  destruct (some_cell_empty _ Hall) as [idx Hidx].
  assert (Hlt : idx < length (board s)) by (apply lookup_lt_Some in Hidx; exact Hidx).
  assert (Hb : click_blocked idx s = false).
  { unfold click_blocked. rewrite Hidx, Hst. reflexivity. }
  destruct (handleClick_total idx s Hb Hlt) as (s' & Hclick & Hne).
  exists idx, s'. repeat split; try assumption. lia.
Qed.

Lemma open_game_has_a_move_example :
  ∃ idx s', idx < 9 ∧
            board x_to_win !! idx = Some None ∧
            handleClick idx x_to_win = Some s' ∧
            s' ≠ x_to_win.
Proof.
  apply (open_game_has_a_move x_to_win).
  - apply x_to_win_reachable.
  - reflexivity.
Defined.

(** ** The random opponent *)

Lemma emptyCells_elem (b : Board) (v : option nat) :
  v ∈ emptyCells b → ∃ i, v = Some i ∧ b !! i = Some None.
Proof.
  unfold emptyCells. intros [Hv Hin]%list_elem_of_filter.
  apply elem_of_lookup_imap in Hin as (i & c & -> & Hc).
  destruct c as [m|]; simpl in Hv; [destruct Hv; reflexivity |].
  exists i. split; [reflexivity | exact Hc].
Qed.

Lemma emptyCells_complete (b : Board) (i : nat) :
  b !! i = Some None → Some i ∈ emptyCells b.
Proof.
  intros Hi. unfold emptyCells. apply list_elem_of_filter. split; [discriminate |].
  apply elem_of_lookup_imap. exists i, None. split; [reflexivity | exact Hi].
Qed.

(** X16. The random opponent plays O on an empty cell or does
    nothing.  [makeAIMove] leaves the state alone when the game is over,
    the mode is not "ai", it is X's turn, or no cell is empty; otherwise
    the entry it picks from [empty] is the index of an empty cell, the
    click on it is accepted and writes O there.  The list [empty] holds
    exactly the indices of the empty cells, and the effect that calls
    [makeAIMove] adds nothing to its guard. *)
Theorem makeAIMove_plays_O (pick : nat) (s : State) :
  (status s ≠ "" ∨ gameMode s ≠ Some "ai" ∨ xIsNext s = true ∨ emptyCells (board s) = [] →
   makeAIMove pick s = Some s) ∧
  (status s = "" ∧ gameMode s = Some "ai" ∧ xIsNext s = false ∧
   pick < length (emptyCells (board s)) →
   ∃ i s', emptyCells (board s) !! pick = Some (Some i) ∧
           board s !! i = Some None ∧
           makeAIMove pick s = Some s' ∧
           board s' = <[i := Some O]> (board s) ∧
           s' ≠ s) ∧
  (∀ i, Some i ∈ emptyCells (board s) ↔ board s !! i = Some None) ∧
  aiEffect pick s = makeAIMove pick s.
Proof.
  split; [| split; [| split]].
  - unfold makeAIMove. intros [Hst | [Hmode | [Hx | Hempty]]].
    + apply nonempty_spec in Hst. rewrite Hst. reflexivity.
    + rewrite (bool_decide_eq_false_2 _ Hmode), orb_true_r. reflexivity.
    + rewrite Hx, orb_true_r. reflexivity.
    + rewrite Hempty. destruct (_ || _ || _); reflexivity.
  - intros (Hst & Hmode & Hx & Hpick).
    destruct (lookup_lt_is_Some_2 _ _ Hpick) as [v Hv].
    destruct (emptyCells_elem _ v (list_elem_of_lookup_2 _ _ _ Hv)) as (i & -> & Hi).
    assert (Hb : click_blocked i s = false).
    { unfold click_blocked. rewrite Hi, Hst. reflexivity. }
    assert (Hlt : i < length (board s)) by (apply lookup_lt_Some in Hi; exact Hi).
    destruct (handleClick_total i s Hb Hlt) as (s' & Hclick & Hne).
    destruct (handleClick_writes i s s' Hclick) as [_ [-> | (_ & _ & Hboard)]];
      [destruct Hne; reflexivity |].
    exists i, s'. split; [exact Hv |]. split; [exact Hi |].
    split; [| split; [| exact Hne]].
    + unfold makeAIMove.
      rewrite Hst, Hx, (bool_decide_eq_true_2 _ Hmode). simpl.
      rewrite bool_decide_eq_false_2 by lia. rewrite Hv. exact Hclick.
    + rewrite Hboard. unfold mover. rewrite Hx. reflexivity.
  - intros i. split.
    + intros (j & [= <-] & Hj)%emptyCells_elem. exact Hj.
    + apply emptyCells_complete.
  - unfold aiEffect, makeAIMove.
    destruct (decide (gameMode s = Some "ai")) as [Hmode | Hmode].
    + rewrite !(bool_decide_eq_true_2 _ Hmode).
      destruct (nonempty (status s)), (xIsNext s); reflexivity.
    + rewrite !(bool_decide_eq_false_2 _ Hmode).
      destruct (nonempty (status s)); reflexivity.
Qed.

(** ** A fresh game *)

(** X17. After [restartGame], and after [startNewGame], every one of
    the nine squares accepts the first click: it writes X there, leaves
    the game in progress and passes the turn to O. *)
Theorem first_click_after_reset (idx : nat) (mode : option string) (s : State) :
  idx < 9 →
  handleClick idx (restartGame s) =
    Some {| gameMode := gameMode s;
            board := <[idx := Some X]> emptyBoard;
            xIsNext := false;
            status := "";
            animWinLine := None |} ∧
  handleClick idx (startNewGame mode s) =
    Some {| gameMode := mode;
            board := <[idx := Some X]> emptyBoard;
            xIsNext := false;
            status := "";
            animWinLine := None |}.
Proof.
  intros Hidx.
  do 9 (destruct idx as [| idx]; [split; reflexivity |]).
  lia.
Qed.

Lemma first_click_after_reset_centre :
  handleClick 4 (restartGame x_has_won) =
    Some {| gameMode := gameMode x_has_won;
            board := <[4 := Some X]> emptyBoard;
            xIsNext := false;
            status := "";
            animWinLine := None |} ∧
  handleClick 4 (startNewGame (Some "ai") x_has_won) =
    Some {| gameMode := Some "ai";
            board := <[4 := Some X]> emptyBoard;
            xIsNext := false;
            status := "";
            animWinLine := None |}.
Proof.
  apply (first_click_after_reset 4 (Some "ai") x_has_won). lia.
Defined.

(** ** The game ends *)

Lemma emptyCells_length_from (k : nat) (b : Board) :
  length (filter (λ v : option nat, v ≠ None)
            (imap (λ i v, if truthy (Some v) then None else Some (k + i)) b))
  = count_cells None b.
Proof.
  revert k. induction b as [| a b IH]; intros k; [reflexivity |].
  rewrite imap_cons, count_cells_cons.
  rewrite (imap_ext _ (λ i v, if truthy (Some v) then None else Some (S k + i)))
    by (intros i v _; simpl; destruct v; [reflexivity | f_equal; lia]).
  pose proof (IH (S k)) as IHk. cbn beta.
  destruct a as [m|]; cbn [truthy].
  - rewrite filter_cons_False by (intros H; apply H; reflexivity).
    rewrite bool_decide_eq_false_2 by discriminate. exact IHk.
  - rewrite filter_cons_True by discriminate.
    rewrite bool_decide_eq_true_2 by reflexivity.
    cbn [length]. exact (f_equal S IHk).
Qed.

Lemma emptyCells_length (b : Board) :
  length (emptyCells b) = count_cells None b.
Proof. apply (emptyCells_length_from 0). Qed.

(** ** Clicks that read an older render *)

Lemma handleClickIn_same_render (idx : nat) (s : State) :
  handleClickIn s idx s = handleClick idx s.
Proof. reflexivity. Qed.

(** What a call of [handleClick] does, whichever render it reads. *)
Lemma handleClickIn_cases (render : State) (idx : nat) (current : State) :
  idx < length (board render) →
  ∃ s', handleClickIn render idx current = Some s' ∧
        gameMode s' = gameMode current ∧
        ((click_blocked idx render = true ∧ s' = current) ∨
         (click_blocked idx render = false ∧
          board s' = <[idx := Some (mover render)]> (board render) ∧
          match calculateWinner (board s') with
          | Some r =>
              xIsNext s' = xIsNext current ∧
              match winner r with
              | Draw => status s' = "Draw!" ∧ animWinLine s' = animWinLine current
              | Won m => status s' = mark_string m +:+ " wins!" ∧ animWinLine s' = line r
              end
          | None =>
              xIsNext s' = negb (xIsNext render) ∧
              status s' = status current ∧
              animWinLine s' = animWinLine current
          end)).
Proof.
  intros Hidx. unfold handleClickIn, mover.
  destruct (click_blocked idx render) eqn:Hb.
  - exists current. split; [reflexivity |]. split; [reflexivity |]. left. split; reflexivity.
  - rewrite bool_decide_eq_true_2 by exact Hidx.
    destruct (calculateWinner _) as [[[m|] ln]|] eqn:Hcw; eexists;
      (split; [reflexivity |]); (split; [reflexivity |]); right;
      (split; [reflexivity |]); simpl; rewrite Hcw; simpl; repeat split; reflexivity.
Qed.

(** X10. A call of [handleClick] on a cell of the board it reads
    always returns, and never touches [gameMode].  Either its guard stops
    it and the state stays as it is, or the board it sets is the board of
    the render it reads with the mover's mark written at [idx]: same
    length, every other cell as in that render, every mark of that render
    kept.  (Marks are kept relative to the render read, which is the
    current board for a click on a square.) *)
Theorem handleClickIn_writes_one_mark (render : State) (idx : nat) (current : State) :
  idx < length (board render) →
  ∃ s', handleClickIn render idx current = Some s' ∧
        gameMode s' = gameMode current ∧
        ((click_blocked idx render = true ∧ s' = current) ∨
         (click_blocked idx render = false ∧
          length (board s') = length (board render) ∧
          board s' !! idx = Some (Some (mover render)) ∧
          (∀ j, j ≠ idx → board s' !! j = board render !! j) ∧
          (∀ j m, board render !! j = Some (Some m) →
                  board s' !! j = Some (Some m)))).
Proof.
  intros Hidx.
  destruct (handleClickIn_cases render idx current Hidx)
    as (s' & Hcall & Hmode & [Hstop | (Hb & Hboard & _)]).
  - exists s'. split; [exact Hcall |]. split; [exact Hmode |]. left. exact Hstop.
  - exists s'. split; [exact Hcall |]. split; [exact Hmode |]. right.
    destruct (click_open idx render Hb) as [_ Hfree].
    rewrite Hboard. split; [exact Hb |]. split; [apply length_insert |].
    split; [apply list_lookup_insert_eq; exact Hidx |]. split.
    + intros j Hj. apply list_lookup_insert_ne. congruence.
    + intros j m Hj. rewrite list_lookup_insert_ne; [exact Hj |].
      intros ->. apply (Hfree m Hj).
Qed.

Lemma handleClickIn_writes_one_mark_stale :
  ∃ s', handleClickIn ai_render 4 ai_overtaken = Some s' ∧
        gameMode s' = gameMode ai_overtaken ∧
        ((click_blocked 4 ai_render = true ∧ s' = ai_overtaken) ∨
         (click_blocked 4 ai_render = false ∧
          length (board s') = length (board ai_render) ∧
          board s' !! 4 = Some (Some (mover ai_render)) ∧
          (∀ j, j ≠ 4 → board s' !! j = board ai_render !! j) ∧
          (∀ j m, board ai_render !! j = Some (Some m) →
                  board s' !! j = Some (Some m)))).
Proof.
  apply (handleClickIn_writes_one_mark ai_render 4 ai_overtaken).
  simpl. lia.
Defined.

(** X18. Every call of [handleClick] that passes its guard on a cell
    of the board it reads uses up one empty cell of that board: the list
    [empty] that [makeAIMove] would compute on the board it sets is
    shorter by exactly one than on the board of the render it read. *)
Theorem handleClickIn_uses_one_cell (render : State) (idx : nat) (current : State) :
  idx < length (board render) →
  click_blocked idx render = false →
  ∃ s', handleClickIn render idx current = Some s' ∧
        length (emptyCells (board s')) + 1 = length (emptyCells (board render)).
Proof.
  intros Hidx Hb.
  destruct (handleClickIn_cases render idx current Hidx)
    as (s' & Hcall & _ & [[Hstop _] | (_ & Hboard & _)]); [congruence |].
  exists s'. split; [exact Hcall |].
  pose proof (click_cell_empty idx render Hb Hidx) as Hcell.
  pose proof (count_cells_insert None None (Some (mover render)) _ _ Hcell) as Hcount.
  rewrite !emptyCells_length, Hboard.
  rewrite bool_decide_eq_true_2 in Hcount by reflexivity.
  rewrite bool_decide_eq_false_2 in Hcount by discriminate.
  lia.
Qed.

Lemma handleClickIn_uses_one_cell_example :
  ∃ s', handleClickIn x_to_win 2 x_to_win = Some s' ∧
        length (emptyCells (board s')) + 1 = length (emptyCells (board x_to_win)).
Proof.
  apply (handleClickIn_uses_one_cell x_to_win 2 x_to_win).
  - simpl. lia.
  - reflexivity.
Defined.

(** ** The component with its timers *)

Lemma move_play (m : Move) (g g' : Game) :
  move m g = Some g' → play g g'.
Proof.
  destruct m as [mode | idx | | k pick]; simpl.
  - intros [= <-]. apply play_event, step_startNewGame.
  - destruct (handleClick idx (shown g)) as [s'|] eqn:Hclick; [| discriminate].
    intros [= <-]. apply play_event, (step_handleClick idx), Hclick.
  - destruct (decide (ai_queues (shown g))) as [Hq |]; [| discriminate].
    intros [= <-]. apply play_queue, Hq.
  - destruct (timers g !! k) as [render|] eqn:Hk; [| discriminate].
    destruct (decide (pick < _)) as [Hpick |]; [| discriminate].
    destruct (aiTimer render pick (shown g)) as [s'|] eqn:Hfire; [| discriminate].
    intros [= <-].
    apply (play_timer g render pick s'); [| exact Hpick | exact Hfire].
    apply (list_elem_of_lookup_2 _ k), Hk.
Qed.

Lemma moves_play (ms : list Move) (g g' : Game) :
  moves ms g = Some g' → rtc play g g'.
Proof.
  revert g. induction ms as [| m rest IH]; intros g H; simpl in H.
  - injection H as <-. apply rtc_refl.
  - destruct (move m g) as [g1|] eqn:Hm; [| discriminate].
    eapply rtc_l; [apply (move_play m g g1 Hm) | apply IH, H].
Qed.

Lemma open_ok_click (render : State) (idx : nat) (current s' : State) :
  length (board render) = 9 →
  open_ok current →
  handleClickIn render idx current = Some s' →
  open_ok s'.
Proof.
  intros Hlen [Hlen' Hopen] Hcall.
  destruct (click_blocked idx render) eqn:Hb.
  { unfold handleClickIn in Hcall. rewrite Hb in Hcall. injection Hcall as <-.
    split; assumption. }
  assert (Hidx : idx < length (board render)).
  { unfold handleClickIn in Hcall. rewrite Hb in Hcall.
    case_bool_decide; [assumption | discriminate]. }
  destruct (handleClickIn_cases render idx current Hidx)
    as (s1 & Hcall1 & _ & Hcases).
  rewrite Hcall in Hcall1. injection Hcall1 as <-.
  destruct Hcases as [[Hb' _] | (_ & Hboard & Hres)]; [congruence |].
  split; [rewrite Hboard, length_insert; exact Hlen |].
  intros Hst. destruct (calculateWinner (board s')) as [[[m|] ln]|].
  - destruct Hres as (_ & Hs & _). rewrite Hst in Hs. destruct m; discriminate.
  - destruct Hres as (_ & Hs & _). rewrite Hst in Hs. discriminate.
  - destruct Hres as (_ & Hs & Ha). split; [reflexivity |].
    rewrite Ha. apply Hopen. congruence.
Qed.

Lemma open_ok_fresh (mode : option string) :
  open_ok {| gameMode := mode; board := emptyBoard; xIsNext := true;
             status := ""; animWinLine := None |}.
Proof. split; [reflexivity |]. intros _. split; reflexivity. Qed.

Lemma open_ok_step (s s' : State) :
  open_ok s → step s s' → open_ok s'.
Proof.
  intros Hs Hstep.
  destruct Hstep as [mode s | s | s | idx s s' Hclick].
  - apply open_ok_fresh.
  - exact Hs.
  - apply open_ok_fresh.
  - apply (open_ok_click s idx s s'); [apply Hs | exact Hs | exact Hclick].
Qed.

Lemma fair_play (g g' : Game) :
  fair g → play g g' → fair g'.
Proof.
  intros [Hshown Htimers] Hplay.
  destruct Hplay as [g s' Hstep | g Hq | g render pick s' Hin Hpick Hfire]; split; simpl.
  - apply (open_ok_step (shown g)); assumption.
  - exact Htimers.
  - exact Hshown.
  - apply Forall_cons. split; [apply Hshown | exact Htimers].
  - unfold aiTimer in Hfire.
    destruct (emptyCells (board render) !! pick) as [[choice|]|]; try discriminate.
    apply (open_ok_click render choice (shown g) s'); [| exact Hshown | exact Hfire].
    apply (proj1 (Forall_forall _ _) Htimers render Hin).
  - exact Htimers.
Qed.

Lemma playable_fair (g : Game) :
  playable g → fair g.
Proof.
  unfold playable. revert g. apply rtc_ind_r.
  - split; [apply (open_ok_fresh None) | constructor].
  - intros g1 g2 _ Hplay IH. apply (fair_play g1); assumption.
Qed.

Lemma overtaking_playable :
  ∃ g, playable g ∧ shown g = ai_after_timer.
Proof.
  destruct (moves overtaking start) as [g|] eqn:Hrun; [| vm_compute in Hrun; discriminate].
  exists g. split; [apply (moves_play overtaking), Hrun |].
  vm_compute in Hrun. injection Hrun as <-. reflexivity.
Qed.

(** X11. In every state the component can show, with the random
    opponent's timers firing on whatever render queued them, the board
    has nine cells, and an empty [status] means that [calculateWinner]
    returns [null] on the board and no line is highlighted. *)
Theorem empty_status_means_open_board (g : Game) :
  playable g →
  length (board (shown g)) = 9 ∧
  (status (shown g) = "" →
   calculateWinner (board (shown g)) = None ∧ animWinLine (shown g) = None).
Proof. intros [Hshown _]%playable_fair. exact Hshown. Qed.

Lemma empty_status_means_open_board_at_start :
  length (board (shown start)) = 9 ∧
  (status (shown start) = "" →
   calculateWinner (board (shown start)) = None ∧ animWinLine (shown start) = None).
Proof.
  apply (empty_status_means_open_board start). apply rtc_refl.
Defined.

(** X12. The message can outlive the line.  As long as every click
    reads the render shown, a set [status] comes with a result of
    [calculateWinner] on the board; but the timer of the random opponent
    reads the render that queued it, and when the user has clicked in
    between it puts that older board back: the component then shows
    "X wins!", and [GameStatus] "Winner: X", over a board on which
    [calculateWinner] returns [null]. *)
Theorem status_can_outlive_the_line :
  (∀ s, reachable s → status s ≠ "" → calculateWinner (board s) ≠ None) ∧
  (∃ g, playable g ∧
        shown g = ai_after_timer ∧
        status (shown g) = "X wins!" ∧
        GameStatus (shown g) = "Winner: X" ∧
        calculateWinner (board (shown g)) = None).
Proof.
  split.
  - intros s [_ Hsync]%reachable_in_sync Hst Hcw.
    rewrite Hcw in Hsync. destruct Hsync as [Hs _]. contradiction.
  - destruct overtaking_playable as (g & Hplay & Hshown).
    exists g. rewrite Hshown. split; [exact Hplay |].
    repeat split; vm_compute; reflexivity.
Qed.

End TicTacToeProofs.
